(** * A shallow embedding of the training-cycle calendar, the leaderboard,
    the entry save path, the number formatters and input field, the date
    filters, chart rows and prefill, the database views and the sign-in
    code check of src/src/App.jsx
    (the complete, second revision of the file). *)

From Stdlib Require Import ZArith QArith Qround Qabs List String Ascii Bool Lia.
From Stdlib Require Import Floats Sorting.Sorted Sorting.Permutation Lqa.
Import ListNotations.
Open Scope string_scope.
Open Scope Z_scope.

(** ** Instants and local calendar days

    A JS [Date] is an instant: milliseconds since the epoch, as [Z].  The
    browser's local zone is a fixed offset [tz] in milliseconds
    ([local time = UTC + tz], i.e. [tz = - getTimezoneOffset() * 60000]). *)
Module Time.

Definition ms_per_day : Z := 86400000.

(** Days since 1970-01-01 of a proleptic Gregorian date (y, m, d). *)
Definition days_from_civil (y m d : Z) : Z :=
  let y' := if m <=? 2 then y - 1 else y in
  let era := y' / 400 in
  let yoe := y' - era * 400 in
  let mp := if m >? 2 then m - 3 else m + 9 in
  let doy := (153 * mp + 2) / 5 + d - 1 in
  let doe := yoe * 365 + yoe / 4 - yoe / 100 + doy in
  era * 146097 + doe - 719468.

(** [new Date('YYYY-MM-DD')]: a date-only ISO string is read as UTC midnight. *)
Definition date_of_iso (y m d : Z) : Z := days_from_civil y m d * ms_per_day.

(** [new Date(y, m - 1, d)]: local midnight of that calendar day. *)
Definition local_date (tz y m d : Z) : Z := days_from_civil y m d * ms_per_day - tz.

(** The local calendar day (days since the epoch) an instant falls on. *)
Definition local_day (tz t : Z) : Z := (t + tz) / ms_per_day.

(** [startOfDay = (d) => new Date(d.getFullYear(), d.getMonth(), d.getDate())] *)
Definition startOfDay (tz t : Z) : Z := local_day tz t * ms_per_day - tz.

(** [d.toLocaleDateString('en-US', { weekday: 'long' })]; 1970-01-01 was a Thursday. *)
Definition weekday_names : list string :=
  ["Sunday"; "Monday"; "Tuesday"; "Wednesday"; "Thursday"; "Friday"; "Saturday"].

Definition dayName (tz t : Z) : string :=
  nth (Z.to_nat ((local_day tz t + 4) mod 7)) weekday_names "".

End Time.
Import Time.

(** ** Movements, weekly templates and cycles *)

Record Movement := mkMovement { key : string; name : string; unit : string }.

(** A weekly template is a JS object keyed by weekday name. *)
Definition Template := list (string * Movement).

Fixpoint lookup (t : Template) (k : string) : option Movement :=
  match t with
  | [] => None
  | (k', m) :: t' => if String.eqb k k' then Some m else lookup t' k
  end.

Definition LEGACY_MOVEMENTS : Template := [
  ("Sunday",    mkMovement "sun" "3 Rep Max Landmine clean" "lbs");
  ("Monday",    mkMovement "mon" "6 Rep Reverse Lunge Max" "lbs");
  ("Tuesday",   mkMovement "tue" "Max power Keiser Push/Pull" "watts");
  ("Wednesday", mkMovement "wed" "Max Treadmill Speed" "mph");
  ("Thursday",  mkMovement "thu" "6 Rep Max Kickstand RDL" "lbs");
  ("Friday",    mkMovement "fri" "6 Rep Max S/A Pull Down" "lbs");
  ("Saturday",  mkMovement "sat" "Max distance 30 sec assault bike" "miles")].

Definition PREV_CYCLE_START := date_of_iso 2025 7 6.
Definition PREV_CYCLE_END := date_of_iso 2025 8 31.
Definition PREV_WEEK_TEMPLATE : Template := LEGACY_MOVEMENTS.

Definition SEPT_CYCLE_START := date_of_iso 2025 9 1.
Definition SEPT_CYCLE_WEEKS := 6.
Definition SEPT_WEEK_TEMPLATE : Template := [
  ("Monday",    mkMovement "w_mon" "6 Rep Bulgarian Split Squat" "lbs");
  ("Tuesday",   mkMovement "w_tue" "6 Rep DB Floor Press" "lbs");
  ("Wednesday", mkMovement "w_wed" ".1 Distance Run" "time");
  ("Thursday",  mkMovement "w_thu" "6 Rep Smith RDL" "lbs");
  ("Friday",    mkMovement "w_fri" "Pull Up + Push Press EDT" "rounds");
  ("Saturday",  mkMovement "w_sat" "Ski/Curl/Squat METCON" "time");
  ("Sunday",    mkMovement "w_sun" "Keiser Rotate to Press" "watts")].

Definition OCT_CYCLE_START := date_of_iso 2025 10 13.
Definition OCT_CYCLE_WEEKS := 6.
Definition OCT_WEEK_TEMPLATE : Template := [
  ("Monday",    mkMovement "o_mon" "Barbell Box Squat" "lbs");
  ("Tuesday",   mkMovement "o_tue" "Barbell Block Bench Press" "lbs");
  ("Wednesday", mkMovement "o_wed" ".25 Assault Bike" "time");
  ("Thursday",  mkMovement "o_thu" "Kickstand Landmine RDL" "lbs");
  ("Friday",    mkMovement "o_fri" "Half Kneeling S/A DB Press" "lbs");
  ("Saturday",  mkMovement "o_sat" ".25 Distance Run" "time");
  ("Sunday",    mkMovement "o_sun" "Kettlebell Complex" "lbs")].

Definition NOV_CYCLE_START := date_of_iso 2025 11 24.
Definition NOV_CYCLE_WEEKS := 6.
Definition NOV_WEEK_TEMPLATE : Template := [
  ("Monday",    mkMovement "n_mon" "Keiser Belt Squat" "watts");
  ("Tuesday",   mkMovement "n_tue" "S/A Tempo DB Row" "lbs");
  ("Wednesday", mkMovement "n_wed" "Keiser Step Chop" "watts");
  ("Thursday",  mkMovement "n_thu" "Barbell Hip Thrust" "lbs");
  ("Friday",    mkMovement "n_fri" "S/A Kneeling Pull Down" "kgs");
  ("Saturday",  mkMovement "n_sat" "200 Meter Ski" "time");
  ("Sunday",    mkMovement "n_sun" "Landmine Clean + Jerk" "lbs")].

Definition JAN_CYCLE_START := date_of_iso 2026 1 12.
Definition JAN_CYCLE_WEEKS := 6.
Definition JAN_WEEK_TEMPLATE : Template := [
  ("Monday",    mkMovement "j_mon" "Landmine kickstand squat 6 RM" "lbs");
  ("Tuesday",   mkMovement "j_tue" "Seated Cable Bench Row 6 RM" "kgs");
  ("Wednesday", mkMovement "j_wed" "Keiser Bar Chop Max Power" "watts");
  ("Thursday",  mkMovement "j_thu" "Smith Bulgarian Split Squat 6 RM" "lbs");
  ("Friday",    mkMovement "j_fri" "Smith Pin Press 6 RM" "lbs");
  ("Saturday",  mkMovement "j_sat" "Treadmill 30 Sec Max Distance" "miles");
  ("Sunday",    mkMovement "j_sun" "S/A Kickstand KB Clean" "lbs")].

(** A cycle: [{ start, endOverride?, weeks?, weekTemplate }]. *)
Record Cycle := mkCycle {
  start : Z;
  endOverride : option Z;
  weeks : option Z;
  weekTemplate : Template }.

Definition CYCLES : list Cycle := [
  mkCycle PREV_CYCLE_START (Some PREV_CYCLE_END) None PREV_WEEK_TEMPLATE;
  mkCycle SEPT_CYCLE_START None (Some SEPT_CYCLE_WEEKS) SEPT_WEEK_TEMPLATE;
  mkCycle OCT_CYCLE_START None (Some OCT_CYCLE_WEEKS) OCT_WEEK_TEMPLATE;
  mkCycle NOV_CYCLE_START None (Some NOV_CYCLE_WEEKS) NOV_WEEK_TEMPLATE;
  mkCycle JAN_CYCLE_START None (Some JAN_CYCLE_WEEKS) JAN_WEEK_TEMPLATE].

(** [getCycleBounds]: [end.setDate(end.getDate() + (weeks ?? 0) * 7 - 1)]
    moves the local midnight [start] by whole local days. *)
Definition getCycleBounds (tz : Z) (c : Cycle) : Z * Z :=
  let s := startOfDay tz (start c) in
  match endOverride c with
  | Some e => (s, startOfDay tz e)
  | None =>
      let w := match weeks c with Some w => w | None => 0 end in
      (s, s + (w * 7 - 1) * ms_per_day)
  end.

Definition in_cycle (tz : Z) (c : Cycle) (d : Z) : bool :=
  let day := startOfDay tz d in
  let '(s, e) := getCycleBounds tz c in
  (s <=? day) && (day <=? e).

(** [getCycleForDate], over a configured cycle list (the app passes [CYCLES]). *)
Fixpoint getCycleForDate_in (cycles : list Cycle) (tz d : Z) : option Cycle :=
  match cycles with
  | [] => None
  | c :: cs => if in_cycle tz c d then Some c else getCycleForDate_in cs tz d
  end.

Definition getCycleForDate (tz d : Z) : option Cycle := getCycleForDate_in CYCLES tz d.

Definition TBD : Movement := mkMovement "tbd" "TBD" "".

Definition movementForDate_in (cycles : list Cycle) (tz d : Z) : Movement :=
  match getCycleForDate_in cycles tz d with
  | Some c =>
      match lookup (weekTemplate c) (dayName tz d) with
      | Some m => m
      | None => TBD
      end
  | None => TBD
  end.

Definition movementForDate (tz d : Z) : Movement := movementForDate_in CYCLES tz d.

Example movementForDate_sep1 :
  movementForDate 0 (local_date 0 2025 9 1) = mkMovement "w_mon" "6 Rep Bulgarian Split Squat" "lbs".
Proof. vm_compute. reflexivity. Qed.

Example movementForDate_ny_jan11 :
  (movementForDate (-18000000) (local_date (-18000000) 2026 1 11)).(name) = "S/A Kickstand KB Clean".
Proof. vm_compute. reflexivity. Qed.

(** ** Lemmas on the calendar *)

Lemma dayName_weekday (tz t : Z) : In (dayName tz t) weekday_names.
Proof.
  unfold dayName.
  pose proof (Z.mod_pos_bound (local_day tz t + 4) 7 ltac:(lia)) as Hb.
  remember ((local_day tz t + 4) mod 7) as r eqn:Hr; clear Hr.
  assert (Hn : (Z.to_nat r < 7)%nat) by lia.
  apply nth_In. exact Hn.
Qed.

Lemma CYCLES_templates_complete (c : Cycle) (k : string) :
  In c CYCLES -> In k weekday_names -> exists m, lookup (weekTemplate c) k = Some m.
Proof.
  intros Hc Hk.
  simpl in Hc; simpl in Hk.
  repeat (destruct Hc as [Hc | Hc]; [subst c | ]); try contradiction;
  repeat (destruct Hk as [Hk | Hk]; [subst k | ]); try contradiction;
  eexists; reflexivity.
Qed.

Lemma in_cycle_bounds (tz d : Z) (c : Cycle) (s e : Z) :
  getCycleBounds tz c = (s, e) ->
  in_cycle tz c d = true <-> s <= startOfDay tz d <= e.
Proof.
  intros Hb. unfold in_cycle. rewrite Hb.
  rewrite andb_true_iff, !Z.leb_le. tauto.
Qed.

Lemma getCycleForDate_in_first (cycles : list Cycle) (tz d : Z) (i : nat) (c : Cycle) :
  nth_error cycles i = Some c ->
  in_cycle tz c d = true ->
  (forall j c', (j < i)%nat -> nth_error cycles j = Some c' -> in_cycle tz c' d = false) ->
  getCycleForDate_in cycles tz d = Some c.
Proof.
  revert i. induction cycles as [| c0 cs IH]; intros i Hi Hin Hbefore.
  - destruct i; discriminate.
  - destruct i as [| i].
    + simpl in Hi. injection Hi as ->. simpl. rewrite Hin. reflexivity.
    + simpl. rewrite (Hbefore 0%nat c0 ltac:(lia) eq_refl).
      apply (IH i Hi Hin).
      intros j c' Hj Hj'. apply (Hbefore (S j)); [lia | exact Hj'].
Qed.

Lemma getCycleForDate_in_none (cycles : list Cycle) (tz d : Z) :
  (forall c, In c cycles -> in_cycle tz c d = false) ->
  getCycleForDate_in cycles tz d = None.
Proof.
  induction cycles as [| c cs IH]; intros H; simpl; [reflexivity |].
  rewrite (H c (or_introl eq_refl)). apply IH. intros c' Hc'. apply H. right. exact Hc'.
Qed.

(** ** Claims about the calendar *)

(** Claim C1: for every date whose local day lies within the inclusive
    bounds [getCycleBounds] computes for some configured cycle, that cycle
    being the first in [CYCLES] to contain it, the cycle's weekly template
    maps the date's weekday name, and [movementForDate] returns exactly that
    movement. *)
Theorem movementForDate_first_cycle (tz d : Z) (i : nat) (c : Cycle) (s e : Z) :
  nth_error CYCLES i = Some c ->
  getCycleBounds tz c = (s, e) ->
  s <= startOfDay tz d <= e ->
  (forall j c', (j < i)%nat -> nth_error CYCLES j = Some c' -> in_cycle tz c' d = false) ->
  lookup (weekTemplate c) (dayName tz d) = Some (movementForDate tz d).
Proof.
  intros Hi Hb Hd Hbefore.
  assert (Hin : in_cycle tz c d = true) by (apply (in_cycle_bounds tz d c s e Hb); exact Hd).
  unfold movementForDate, movementForDate_in.
  rewrite (getCycleForDate_in_first CYCLES tz d i c Hi Hin Hbefore).
  destruct (CYCLES_templates_complete c (dayName tz d) (nth_error_In _ _ Hi) (dayName_weekday tz d))
    as [m Hm].
  rewrite Hm. reflexivity.
Qed.

Lemma movementForDate_first_cycle_witness :
  nth_error CYCLES 1 = Some (mkCycle SEPT_CYCLE_START None (Some SEPT_CYCLE_WEEKS) SEPT_WEEK_TEMPLATE) /\
  lookup SEPT_WEEK_TEMPLATE (dayName 0 (local_date 0 2025 9 1)) = Some (movementForDate 0 (local_date 0 2025 9 1)).
Proof.
  split; [reflexivity |].
  apply (movementForDate_first_cycle 0 (local_date 0 2025 9 1) 1
           (mkCycle SEPT_CYCLE_START None (Some SEPT_CYCLE_WEEKS) SEPT_WEEK_TEMPLATE)
           (startOfDay 0 SEPT_CYCLE_START) (startOfDay 0 SEPT_CYCLE_START + 41 * ms_per_day)).
  - reflexivity.
  - vm_compute. reflexivity.
  - vm_compute. split; discriminate.
  - intros j c' Hj Hc'. destruct j as [| j]; [| lia].
    simpl in Hc'. injection Hc' as <-. vm_compute. reflexivity.
Defined.

(** Claim C5 (counterexample): with a cycle whose template lacks a weekday,
    [movementForDate] does not consult [LEGACY_MOVEMENTS]: on Tuesday
    2025-09-02, inside a one-week cycle that maps only Monday, it returns the
    TBD sentinel although the legacy template maps Tuesday. *)
Definition partial_cycle : Cycle :=
  mkCycle SEPT_CYCLE_START None (Some 1)
    [("Monday", mkMovement "w_mon" "6 Rep Bulgarian Split Squat" "lbs")].

Lemma movementForDate_no_fallback_counterexample :
  getCycleForDate_in [partial_cycle] 0 (local_date 0 2025 9 2) = Some partial_cycle /\
  lookup (weekTemplate partial_cycle) (dayName 0 (local_date 0 2025 9 2)) = None /\
  lookup LEGACY_MOVEMENTS (dayName 0 (local_date 0 2025 9 2)) =
    Some (mkMovement "tue" "Max power Keiser Push/Pull" "watts") /\
  movementForDate_in [partial_cycle] 0 (local_date 0 2025 9 2) = TBD /\
  TBD <> mkMovement "tue" "Max power Keiser Push/Pull" "watts".
Proof.
  vm_compute. repeat split; try reflexivity. discriminate.
Qed.

(** Claim C5 (as amended): [movementForDate] has no fallback template.  For
    any configured cycle list, a date whose first containing cycle has no
    mapping for the date's weekday resolves to the TBD sentinel; and with the
    configured [CYCLES] that case never arises, since every template maps
    all seven weekdays. *)
Theorem movementForDate_missing_weekday_tbd :
  (forall (cycles : list Cycle) (tz d : Z) (c : Cycle),
      getCycleForDate_in cycles tz d = Some c ->
      lookup (weekTemplate c) (dayName tz d) = None ->
      movementForDate_in cycles tz d = TBD) /\
  (forall (tz d : Z) (c : Cycle),
      getCycleForDate tz d = Some c -> lookup (weekTemplate c) (dayName tz d) <> None).
Proof.
  split.
  - intros cycles tz d c Hc Hl. unfold movementForDate_in. rewrite Hc, Hl. reflexivity.
  - intros tz d c Hc.
    assert (HIn : In c CYCLES).
    { unfold getCycleForDate in Hc. revert Hc. generalize CYCLES as cs.
      induction cs as [| c0 cs IH]; simpl; intros H; [discriminate |].
      destruct (in_cycle tz c0 d); [injection H as ->; left; reflexivity | right; auto]. }
    destruct (CYCLES_templates_complete c (dayName tz d) HIn (dayName_weekday tz d)) as [m Hm].
    rewrite Hm. discriminate.
Qed.

Lemma movementForDate_missing_weekday_tbd_witness :
  movementForDate_in [partial_cycle] 0 (local_date 0 2025 9 2) = TBD.
Proof.
  apply (proj1 movementForDate_missing_weekday_tbd [partial_cycle] 0 (local_date 0 2025 9 2) partial_cycle).
  - vm_compute. reflexivity.
  - vm_compute. reflexivity.
Defined.

(** In UTC the week 2026-01-05 .. 2026-01-11 between the Nov and Jan cycles
    resolves to TBD on every day. *)
Example gap_week_tbd_utc :
  map (fun d => movementForDate 0 (local_date 0 2026 1 d)) [5; 6; 7; 8; 9; 10; 11] =
  [TBD; TBD; TBD; TBD; TBD; TBD; TBD].
Proof. vm_compute. reflexivity. Qed.

(** Claim C10 (code defect): the cycle starts are built with
    [new Date('YYYY-MM-DD')], which is UTC midnight; in a zone west of UTC
    such as UTC-5 (New York in January) [startOfDay] moves every start to
    the previous local day.  There the Jan cycle already covers Sunday
    2026-01-11, which resolves to the Jan cycle's Sunday movement and not to
    TBD, while Sunday 2026-01-04, the Nov cycle's last day by its comment,
    resolves to TBD. *)
Theorem gap_week_shifted_west_of_utc :
  getCycleForDate (-18000000) (local_date (-18000000) 2026 1 11) =
    Some (mkCycle JAN_CYCLE_START None (Some JAN_CYCLE_WEEKS) JAN_WEEK_TEMPLATE) /\
  movementForDate (-18000000) (local_date (-18000000) 2026 1 11) =
    mkMovement "j_sun" "S/A Kickstand KB Clean" "lbs" /\
  movementForDate (-18000000) (local_date (-18000000) 2026 1 4) = TBD.
Proof. vm_compute. repeat split; reflexivity. Qed.

(** ** Entries and the leaderboard *)

(** A row of the [entries] table as the app reads it.  [value] is
    [Number(e.value)]; stored values are finite, and a finite double compares
    (and its differences have the sign) of its exact rational value, so
    values are kept as [Q].  [ename], [gender] and [notes] may be null. *)
Record Entry := mkEntry {
  user_id : string;
  date : string;
  movement : string;
  value : Q;
  eunit : string;
  ename : option string;
  gender : option string;
  notes : option string }.

(** [String.prototype.trim] on ASCII text. *)
Definition is_ws (c : ascii) : bool :=
  match nat_of_ascii c with 9 | 10 | 11 | 12 | 13 | 32 => true | _ => false end%nat.

Fixpoint trim_start (s : string) : string :=
  match s with
  | EmptyString => EmptyString
  | String c s' => if is_ws c then trim_start s' else s
  end.

Definition trim (s : string) : string :=
  string_of_list_ascii (rev (list_ascii_of_string
    (trim_start (string_of_list_ascii (rev (list_ascii_of_string (trim_start s))))))).

(** [(s || d)]: the empty string and null are falsy. *)
Definition or_default (s : option string) (d : string) : string :=
  match s with
  | Some x => if String.eqb x "" then d else x
  | None => d
  end.

(** [const key = (r.name || 'Member').trim() || 'Member'] *)
Definition person_key (r : Entry) : string :=
  or_default (Some (trim (or_default (ename r) "Member"))) "Member".

(** [getMovementUnitByName]: first match over the cycles' templates, then the legacy one. *)
Fixpoint unit_in_template (t : Template) (nm : string) : option string :=
  match t with
  | [] => None
  | (_, m) :: t' => if String.eqb (name m) nm then Some (unit m) else unit_in_template t' nm
  end.

Fixpoint unit_in_cycles (cs : list Cycle) (nm : string) : option string :=
  match cs with
  | [] => None
  | c :: cs' =>
      match unit_in_template (weekTemplate c) nm with
      | Some u => Some u
      | None => unit_in_cycles cs' nm
      end
  end.

Definition getMovementUnitByName (nm : string) : string :=
  if String.eqb nm "" then "" else
  match unit_in_cycles CYCLES nm with
  | Some u => u
  | None => match unit_in_template LEGACY_MOVEMENTS nm with Some u => u | None => "" end
  end.

Definition LOWER_BETTER_MOVES : list string :=
  [".1 Distance Run"; ".25 Assault Bike"; ".25 Distance Run"; "200 Meter Ski"].

Definition lowerIsBetter (nm : string) : bool :=
  String.eqb (getMovementUnitByName nm) "time" || existsb (String.eqb nm) LOWER_BETTER_MOVES.

Definition Qltb (x y : Q) : bool := negb (Qle_bool y x).

(** [isBetter(newVal, prevVal)] *)
Definition isBetter (lower : bool) (newVal prevVal : Q) : bool :=
  if lower then Qltb newVal prevVal else Qltb prevVal newVal.

(** A JS [Map] keyed by strings, in insertion order; [set] on a present key
    keeps its position. *)
Definition SMap (A : Type) := list (string * A).

Fixpoint map_get {A} (m : SMap A) (k : string) : option A :=
  match m with
  | [] => None
  | (k', v) :: m' => if String.eqb k k' then Some v else map_get m' k
  end.

Fixpoint map_set {A} (m : SMap A) (k : string) (v : A) : SMap A :=
  match m with
  | [] => [(k, v)]
  | (k', v') :: m' => if String.eqb k k' then (k, v) :: m' else (k', v') :: map_set m' k v
  end.

Definition is_male (r : Entry) : bool :=
  match gender r with Some g => String.eqb g "male" | None => false end.

Definition relevant (nm : string) (e : Entry) : bool :=
  String.eqb (movement e) nm &&
  match gender e with Some g => String.eqb g "male" || String.eqb g "female" | None => false end.

(** One iteration of [for (const r of rows)] over the pair of buckets. *)
Definition bucket_step (lower : bool) (bs : SMap Entry * SMap Entry) (r : Entry)
  : SMap Entry * SMap Entry :=
  let '(bm, bf) := bs in
  let k := person_key r in
  let bucket := if is_male r then bm else bf in
  let upd := match map_get bucket k with
             | None => true
             | Some prev => isBetter lower (value r) (value prev)
             end in
  let bucket' := if upd then map_set bucket k r else bucket in
  if is_male r then (bucket', bf) else (bm, bucket').

Definition buckets (lower : bool) (rows : list Entry) : SMap Entry * SMap Entry :=
  fold_left (bucket_step lower) rows ([], []).

(** [sortFn] as a "negative means a before b" test. *)
Definition sort_lt (lower : bool) (a b : Entry) : bool :=
  if lower then Qltb (value a) (value b) else Qltb (value b) (value a).

(** [Array.prototype.sort] is stable; with a consistent comparator every
    stable sort gives the same order, the one of insertion sort. *)
Fixpoint insert_by (lower : bool) (x : Entry) (l : list Entry) : list Entry :=
  match l with
  | [] => [x]
  | y :: l' => if sort_lt lower x y then x :: y :: l' else y :: insert_by lower x l'
  end.

Definition sort_by (lower : bool) (l : list Entry) : list Entry :=
  fold_left (fun acc x => insert_by lower x acc) l [].

Definition top5 (lower : bool) (m : SMap Entry) : list Entry :=
  firstn 5 (sort_by lower (map snd m)).

Record Board := mkBoard { male : list Entry; female : list Entry; bunit : string }.

Definition leaderboard (entries : list Entry) (lbMovementName : string) : Board :=
  if String.eqb lbMovementName "" then mkBoard [] [] "" else
  let movementUnit := getMovementUnitByName lbMovementName in
  let lower := lowerIsBetter lbMovementName in
  let rows := filter (relevant lbMovementName) entries in
  let '(bestMale, bestFemale) := buckets lower rows in
  mkBoard (top5 lower bestMale) (top5 lower bestFemale) movementUnit.

Definition ent (nm : string) (g : string) (v : Q) : Entry :=
  mkEntry "u" "2025-09-01" "6 Rep Bulgarian Split Squat" v "lbs" (Some nm) (Some g) None.

Example leaderboard_spec_example :
  leaderboard [ent "Alice" "female" 100; ent "Alice" "female" 120; ent "Bob" "male" 90]
              "6 Rep Bulgarian Split Squat" =
  mkBoard [ent "Bob" "male" 90] [ent "Alice" "female" 120] "lbs".
Proof. vm_compute. reflexivity. Qed.

(** ** Lemmas on the leaderboard *)

Lemma Qltb_iff (x y : Q) : Qltb x y = true <-> (x < y)%Q.
Proof.
  unfold Qltb. rewrite negb_true_iff. split.
  - intros H. apply Qnot_le_lt. intros Hle. apply Qle_bool_iff in Hle. congruence.
  - intros H. destruct (Qle_bool y x) eqn:E; [| reflexivity].
    apply Qle_bool_iff in E. exfalso. apply (Qlt_not_le x y H E).
Qed.

(** The order the leaderboard is meant to follow: best first. *)
Definition dir_le (lower : bool) (a b : Entry) : Prop :=
  if lower then (value a <= value b)%Q else (value b <= value a)%Q.

Lemma sort_lt_dir_le (lower : bool) (x y : Entry) :
  (sort_lt lower x y = true -> dir_le lower x y) /\
  (sort_lt lower x y = false -> dir_le lower y x).
Proof.
  unfold sort_lt, dir_le. destruct lower; split; intros H.
  - apply Qltb_iff in H. apply Qlt_le_weak. exact H.
  - apply Qnot_lt_le. intros Hlt. apply Qltb_iff in Hlt. congruence.
  - apply Qltb_iff in H. apply Qlt_le_weak. exact H.
  - apply Qnot_lt_le. intros Hlt. apply Qltb_iff in Hlt. congruence.
Qed.

Lemma insert_by_sorted (lower : bool) (x : Entry) (l : list Entry) :
  Sorted (dir_le lower) l -> Sorted (dir_le lower) (insert_by lower x l).
Proof.
  induction l as [| y l IH]; intros Hs; simpl.
  - constructor; constructor.
  - destruct (sort_lt lower x y) eqn:E.
    + constructor; [exact Hs |]. constructor. apply (proj1 (sort_lt_dir_le lower x y)). exact E.
    + apply Sorted_inv in Hs as [Hs Hhd]. constructor; [apply IH; exact Hs |].
      destruct l as [| z l']; simpl.
      * constructor. apply (proj2 (sort_lt_dir_le lower x y)). exact E.
      * destruct (sort_lt lower x z).
        -- constructor. apply (proj2 (sort_lt_dir_le lower x y)). exact E.
        -- inversion Hhd; subst. constructor. assumption.
Qed.

Lemma sort_by_sorted (lower : bool) (l : list Entry) : Sorted (dir_le lower) (sort_by lower l).
Proof.
  unfold sort_by.
  assert (G : forall acc, Sorted (dir_le lower) acc ->
            Sorted (dir_le lower) (fold_left (fun acc x => insert_by lower x acc) l acc)).
  { induction l as [| x l IH]; intros acc Hacc; simpl; [exact Hacc |].
    apply IH. apply insert_by_sorted. exact Hacc. }
  apply G. constructor.
Qed.

Lemma firstn_sorted {A} (R : A -> A -> Prop) (n : nat) (l : list A) :
  Sorted R l -> Sorted R (firstn n l).
Proof.
  revert l. induction n as [| n IH]; intros l Hs; simpl; [constructor |].
  destruct l as [| a l]; [constructor |].
  apply Sorted_inv in Hs as [Hs Hhd]. constructor; [apply IH; exact Hs |].
  destruct n as [| n]; simpl; [constructor |].
  destruct l as [| b l]; [constructor |]. inversion Hhd; subst. constructor. assumption.
Qed.

Lemma sorted_adjacent {A} (R : A -> A -> Prop) (l : list A) :
  Sorted R l -> forall i a b, nth_error l i = Some a -> nth_error l (S i) = Some b -> R a b.
Proof.
  induction l as [| x l IH]; intros Hs i a b Ha Hb; [destruct i; discriminate |].
  apply Sorted_inv in Hs as [Hs Hhd].
  destruct i as [| i].
  - simpl in Ha, Hb. injection Ha as <-. destruct l as [| y l]; [discriminate |].
    simpl in Hb. injection Hb as <-. inversion Hhd; subst. assumption.
  - simpl in Ha, Hb. apply (IH Hs i a b Ha Hb).
Qed.

(** A leaderboard list: at most five rows, best first in the movement's direction. *)
Definition ranked (nm : string) (l : list Entry) : Prop :=
  (List.length l <= 5)%nat /\
  (forall i a b, nth_error l i = Some a -> nth_error l (S i) = Some b -> dir_le (lowerIsBetter nm) a b).

Lemma top5_ranked (nm : string) (m : SMap Entry) : ranked nm (top5 (lowerIsBetter nm) m).
Proof.
  unfold top5, ranked. split.
  - apply firstn_le_length.
  - apply sorted_adjacent. apply firstn_sorted. apply sort_by_sorted.
Qed.

(** Claim C3: for every entry list and movement name, each gender's
    leaderboard has at most five rows and, for every adjacent pair,
    [row[i].value >= row[i+1].value] when the movement is higher-is-better
    and [row[i].value <= row[i+1].value] when it is lower-is-better (unit
    ["time"] or a name in [LOWER_BETTER_MOVES]). *)
Theorem leaderboard_ranked (entries : list Entry) (nm : string) :
  (List.length (male (leaderboard entries nm)) <= 5)%nat /\
  (List.length (female (leaderboard entries nm)) <= 5)%nat /\
  (forall (l : list Entry) i a b,
     (l = male (leaderboard entries nm) \/ l = female (leaderboard entries nm)) ->
     nth_error l i = Some a -> nth_error l (S i) = Some b ->
     if String.eqb (getMovementUnitByName nm) "time" || existsb (String.eqb nm) LOWER_BETTER_MOVES
     then (value a <= value b)%Q
     else (value b <= value a)%Q).
Proof.
  assert (H : ranked nm (male (leaderboard entries nm)) /\ ranked nm (female (leaderboard entries nm))).
  { unfold leaderboard. destruct (String.eqb nm "").
    - split; split; simpl; [lia | intros [|] ? ? ? ?; discriminate | lia | intros [|] ? ? ? ?; discriminate].
    - destruct (buckets (lowerIsBetter nm) (filter (relevant nm) entries)) as [bm bf].
      simpl. split; apply top5_ranked. }
  destruct H as [[Hml Hms] [Hfl Hfs]].
  split; [exact Hml | split; [exact Hfl |]].
  intros l i a b [-> | ->] Ha Hb.
  - exact (Hms i a b Ha Hb).
  - exact (Hfs i a b Ha Hb).
Qed.

Lemma leaderboard_ranked_witness :
  let es := [ent "Ann" "female" 100; ent "Bea" "female" 120; ent "Ann" "female" 130] in
  nth_error (female (leaderboard es "6 Rep Bulgarian Split Squat")) 0%nat = Some (ent "Ann" "female" 130) /\
  nth_error (female (leaderboard es "6 Rep Bulgarian Split Squat")) 1%nat = Some (ent "Bea" "female" 120) /\
  (120 <= 130)%Q.
Proof.
  intros es. split; [vm_compute; reflexivity |]. split; [vm_compute; reflexivity |].
  exact (proj2 (proj2 (leaderboard_ranked es "6 Rep Bulgarian Split Squat"))
           (female (leaderboard es "6 Rep Bulgarian Split Squat")) 0%nat _ _
           (or_intror eq_refl) eq_refl eq_refl).
Defined.

(** *** One bucket at a time *)

(** The update [bucket_step] performs on the bucket of the row's gender. *)
Definition best_step (lower : bool) (bucket : SMap Entry) (r : Entry) : SMap Entry :=
  let k := person_key r in
  let upd := match map_get bucket k with
             | None => true
             | Some prev => isBetter lower (value r) (value prev)
             end in
  if upd then map_set bucket k r else bucket.

Lemma buckets_split (lower : bool) (rows : list Entry) (bm bf : SMap Entry) :
  fold_left (bucket_step lower) rows (bm, bf) =
  (fold_left (best_step lower) (filter is_male rows) bm,
   fold_left (best_step lower) (filter (fun r => negb (is_male r)) rows) bf).
Proof.
  revert bm bf. induction rows as [| r rows IH]; intros bm bf; simpl; [reflexivity |].
  unfold bucket_step at 1. destruct (is_male r); simpl; apply IH.
Qed.

Lemma map_get_set_eq {A} (m : SMap A) (k : string) (v : A) : map_get (map_set m k v) k = Some v.
Proof.
  induction m as [| [k' v'] m IH]; simpl.
  - rewrite String.eqb_refl. reflexivity.
  - destruct (String.eqb k k') eqn:E; simpl.
    + rewrite String.eqb_refl. reflexivity.
    + rewrite E. exact IH.
Qed.

Lemma map_get_set_neq {A} (m : SMap A) (k k' : string) (v : A) :
  k' <> k -> map_get (map_set m k v) k' = map_get m k'.
Proof.
  intros Hne. induction m as [| [k0 v0] m IH]; simpl.
  - apply String.eqb_neq in Hne. rewrite Hne. reflexivity.
  - destruct (String.eqb k k0) eqn:E; simpl.
    + apply String.eqb_eq in E. subst k0. apply String.eqb_neq in Hne. rewrite Hne. reflexivity.
    + rewrite IH. reflexivity.
Qed.

Lemma map_set_keys {A} (m : SMap A) (k x : string) (v : A) :
  In x (map fst (map_set m k v)) -> x = k \/ In x (map fst m).
Proof.
  induction m as [| [k0 v0] m IH]; simpl; intros H.
  - destruct H as [H | []]. left. symmetry. exact H.
  - destruct (String.eqb k k0) eqn:E; simpl in H.
    + apply String.eqb_eq in E. subst k0. destruct H as [H | H]; [left; symmetry; exact H | right; right; exact H].
    + destruct H as [H | H]; [right; left; exact H |].
      destruct (IH H) as [H' | H']; [left; exact H' | right; right; exact H'].
Qed.

Lemma map_set_nodup {A} (m : SMap A) (k : string) (v : A) :
  NoDup (map fst m) -> NoDup (map fst (map_set m k v)).
Proof.
  induction m as [| [k0 v0] m IH]; simpl; intros Hnd.
  - constructor; [intros [] | constructor].
  - inversion Hnd as [| ? ? Hnin Hnd']; subst.
    destruct (String.eqb k k0) eqn:E; simpl.
    + apply String.eqb_eq in E. subst k0. constructor; assumption.
    + constructor; [| apply IH; exact Hnd'].
      intros Hin. apply map_set_keys in Hin as [Hin | Hin].
      * subst k0. rewrite String.eqb_refl in E. discriminate.
      * contradiction.
Qed.

Lemma map_set_entries {A} (P : string -> A -> Prop) (m : SMap A) (k : string) (v : A) :
  (forall kv, In kv m -> P (fst kv) (snd kv)) -> P k v ->
  forall kv, In kv (map_set m k v) -> P (fst kv) (snd kv).
Proof.
  intros Hm Hkv. induction m as [| [k0 v0] m IH]; simpl; intros kv Hin.
  - destruct Hin as [<- | []]. exact Hkv.
  - destruct (String.eqb k k0).
    + destruct Hin as [<- | Hin]; [exact Hkv | apply Hm; right; exact Hin].
    + destruct Hin as [<- | Hin]; [apply Hm; left; reflexivity |].
      apply IH; [intros kv' Hkv'; apply Hm; right; exact Hkv' | exact Hin].
Qed.

Lemma map_get_in {A} (m : SMap A) (k : string) (v : A) : map_get m k = Some v -> In (k, v) m.
Proof.
  induction m as [| [k0 v0] m IH]; simpl; intros H; [discriminate |].
  destruct (String.eqb k k0) eqn:E.
  - apply String.eqb_eq in E. subst k0. injection H as <-. left. reflexivity.
  - right. apply IH. exact H.
Qed.

Lemma count_key_one {A} (m : SMap A) (k : string) (v : A) :
  NoDup (map fst m) -> map_get m k = Some v ->
  List.length (filter (fun kv => String.eqb (fst kv) k) m) = 1%nat.
Proof.
  induction m as [| [k0 v0] m IH]; simpl; intros Hnd H; [discriminate |].
  inversion Hnd as [| ? ? Hnin Hnd']; subst.
  destruct (String.eqb k k0) eqn:E.
  - apply String.eqb_eq in E. subst k0. rewrite String.eqb_refl. simpl. f_equal.
    assert (G : forall l : SMap A, ~ In k (map fst l) -> filter (fun kv => String.eqb (fst kv) k) l = []).
    { induction l as [| [k1 v1] l IHl]; simpl; intros Hn; [reflexivity |].
      destruct (String.eqb k1 k) eqn:E1.
      - apply String.eqb_eq in E1. exfalso. apply Hn. left. exact E1.
      - apply IHl. intros Hin. apply Hn. right. exact Hin. }
    rewrite (G m Hnin). reflexivity.
  - rewrite String.eqb_sym, E. apply IH; assumption.
Qed.

Lemma dir_le_trans (lower : bool) (a b c : Entry) :
  dir_le lower a b -> dir_le lower b c -> dir_le lower a c.
Proof.
  unfold dir_le. destruct lower; intros H1 H2; eapply Qle_trans; eauto.
Qed.

Lemma isBetter_dir (lower : bool) (r prev : Entry) :
  (isBetter lower (value r) (value prev) = true -> dir_le lower r prev) /\
  (isBetter lower (value r) (value prev) = false -> dir_le lower prev r).
Proof.
  unfold isBetter. exact (sort_lt_dir_le lower r prev).
Qed.

(** The invariant of the best-per-person loop over the rows [rs] seen so far. *)
Definition best_inv (lower : bool) (b : SMap Entry) (rs : list Entry) : Prop :=
  NoDup (map fst b) /\
  (forall kv, In kv b -> person_key (snd kv) = fst kv) /\
  (forall k r, map_get b k = Some r ->
     In r rs /\ forall e, In e rs -> person_key e = k -> dir_le lower r e) /\
  (forall e, In e rs -> map_get b (person_key e) <> None).

Lemma best_step_inv (lower : bool) (b : SMap Entry) (rs : list Entry) (r : Entry) :
  best_inv lower b rs -> best_inv lower (best_step lower b r) (rs ++ [r]).
Proof.
  intros [Hnd [Hkeys [Hbest Hall]]].
  unfold best_step. set (k := person_key r).
  assert (Hupd : forall b', b' = map_set b k r ->
     (forall prev, map_get b k = Some prev -> dir_le lower r prev) ->
     best_inv lower b' (rs ++ [r])).
  { intros b' -> Hr. split; [apply map_set_nodup; exact Hnd |].
    split; [apply (map_set_entries (fun k0 v0 => person_key v0 = k0)); [exact Hkeys | reflexivity] |].
    split.
    - intros k' r' Hg. destruct (String.eqb k' k) eqn:E.
      + apply String.eqb_eq in E. subst k'. rewrite map_get_set_eq in Hg. injection Hg as <-.
        split; [apply in_or_app; right; left; reflexivity |].
        intros e He Hke. apply in_app_or in He as [He | [<- | []]].
        * destruct (map_get b k) as [prev |] eqn:Hp.
          -- apply (dir_le_trans lower r prev e (Hr prev eq_refl)).
             apply (proj2 (Hbest k prev Hp)); assumption.
          -- exfalso. apply (Hall e He). rewrite Hke. exact Hp.
        * unfold dir_le. destruct lower; apply Qle_refl.
      + apply String.eqb_neq in E. rewrite (map_get_set_neq b k k' r E) in Hg.
        destruct (Hbest k' r' Hg) as [Hin Hle].
        split; [apply in_or_app; left; exact Hin |].
        intros e He Hke. apply in_app_or in He as [He | [<- | []]].
        * apply Hle; assumption.
        * exfalso. apply E. symmetry. exact Hke.
    - intros e He. destruct (String.eqb (person_key e) k) eqn:E.
      + apply String.eqb_eq in E. rewrite E, map_get_set_eq. discriminate.
      + apply String.eqb_neq in E. rewrite (map_get_set_neq b k _ r E).
        apply in_app_or in He as [He | [<- | []]]; [apply Hall; exact He |].
        exfalso. apply E. reflexivity. }
  destruct (map_get b k) as [prev |] eqn:Hp.
  - destruct (isBetter lower (value r) (value prev)) eqn:Hbt.
    + apply Hupd; [reflexivity |]. intros p Hp'. try rewrite Hp in Hp'. injection Hp' as <-.
      apply (proj1 (isBetter_dir lower r prev)). exact Hbt.
    + split; [exact Hnd |]. split; [exact Hkeys |]. split.
      * intros k' r' Hg. destruct (Hbest k' r' Hg) as [Hin Hle].
        split; [apply in_or_app; left; exact Hin |].
        intros e He Hke. apply in_app_or in He as [He | [<- | []]]; [apply Hle; assumption |].
        subst k'. fold k in Hg. rewrite Hp in Hg. injection Hg as <-.
        apply (proj2 (isBetter_dir lower r prev)). exact Hbt.
      * intros e He. apply in_app_or in He as [He | [<- | []]]; [apply Hall; exact He |].
        fold k. rewrite Hp. discriminate.
  - apply Hupd; [reflexivity |]. intros p Hp'. discriminate.
Qed.

Lemma best_fold_inv (lower : bool) (rows : list Entry) :
  best_inv lower (fold_left (best_step lower) rows []) rows.
Proof.
  induction rows as [| r rows IH] using rev_ind.
  - split; [constructor |]. split; [intros ? [] |]. split; [intros ? ? H; discriminate | intros ? []].
  - rewrite fold_left_app. simpl. apply best_step_inv. exact IH.
Qed.

Lemma insert_by_perm (lower : bool) (x : Entry) (l : list Entry) :
  Permutation (insert_by lower x l) (x :: l).
Proof.
  induction l as [| y l IH]; simpl; [reflexivity |].
  destruct (sort_lt lower x y); [reflexivity |].
  rewrite IH. apply perm_swap.
Qed.

Lemma sort_by_perm (lower : bool) (l : list Entry) : Permutation (sort_by lower l) l.
Proof.
  unfold sort_by.
  assert (G : forall acc, Permutation (fold_left (fun acc x => insert_by lower x acc) l acc) (rev l ++ acc)).
  { induction l as [| x l IH]; intros acc; simpl; [reflexivity |].
    rewrite IH, insert_by_perm, <- app_assoc. simpl.
    reflexivity. }
  rewrite G, app_nil_r. symmetry. apply Permutation_rev.
Qed.

Lemma nodup_firstn {A} (n : nat) (l : list A) : NoDup l -> NoDup (firstn n l).
Proof.
  intros H. rewrite <- (firstn_skipn n l) in H. apply NoDup_app_remove_r in H. exact H.
Qed.

Lemma top5_nodup_keys (lower : bool) (b : SMap Entry) (rs : list Entry) :
  best_inv lower b rs -> NoDup (map person_key (top5 lower b)).
Proof.
  intros [Hnd [Hkeys _]]. unfold top5. rewrite <- firstn_map. apply nodup_firstn.
  apply (Permutation_NoDup (l := map person_key (map snd b))).
  - apply Permutation_map. symmetry. apply sort_by_perm.
  - rewrite map_map. erewrite map_ext_in; [exact Hnd |].
    intros kv Hkv. apply Hkeys. exact Hkv.
Qed.

Lemma filter_compose {A} (f g : A -> bool) (l : list A) :
  filter f (filter g l) = filter (fun x => g x && f x) l.
Proof.
  induction l as [| x l IH]; simpl; [reflexivity |].
  destruct (g x); simpl; [destruct (f x); simpl; rewrite IH |]; reflexivity || exact IH.
Qed.

(** The two buckets [bestMale], [bestFemale] of [leaderboard], before sorting. *)
Definition leaderboard_buckets (entries : list Entry) (lbMovementName : string) : SMap Entry * SMap Entry :=
  if String.eqb lbMovementName "" then ([], []) else
  buckets (lowerIsBetter lbMovementName) (filter (relevant lbMovementName) entries).

Definition gender_bucket (entries : list Entry) (nm g : string) : SMap Entry :=
  if String.eqb g "male" then fst (leaderboard_buckets entries nm) else snd (leaderboard_buckets entries nm).

Definition gender_board (b : Board) (g : string) : list Entry :=
  if String.eqb g "male" then male b else female b.

Lemma gender_bucket_fold (entries : list Entry) (nm g : string) :
  nm <> "" -> (g = "male" \/ g = "female") ->
  gender_bucket entries nm g =
  fold_left (best_step (lowerIsBetter nm))
    (filter (fun e => relevant nm e && (if String.eqb g "male" then is_male e else negb (is_male e))) entries) [] /\
  gender_board (leaderboard entries nm) g = top5 (lowerIsBetter nm) (gender_bucket entries nm g).
Proof.
  intros Hnm Hg. apply String.eqb_neq in Hnm.
  unfold gender_bucket, gender_board, leaderboard, leaderboard_buckets, buckets. rewrite Hnm.
  rewrite buckets_split, !filter_compose. simpl.
  destruct Hg as [-> | ->]; simpl; split; reflexivity.
Qed.

(** Claim C2: for every entry list and (non-empty) movement name, every
    person key (trimmed display name, ["Member"] when blank) with at least
    one entry of that movement and of gender [g] ("male" or "female") has
    exactly one row in the gender's bucket; that row is one of the person's
    entries and its value is the person's maximum (higher-is-better) or
    minimum (lower-is-better); and no person has two rows in the gender's
    final leaderboard. *)
Theorem leaderboard_one_best_row (entries : list Entry) (nm g k : string) :
  nm <> "" -> (g = "male" \/ g = "female") ->
  (exists e, In e entries /\ movement e = nm /\ gender e = Some g /\ person_key e = k) ->
  List.length (filter (fun kv => String.eqb (fst kv) k) (gender_bucket entries nm g)) = 1%nat /\
  (exists r, map_get (gender_bucket entries nm g) k = Some r /\
     In r entries /\ movement r = nm /\ gender r = Some g /\ person_key r = k /\
     forall e, In e entries -> movement e = nm -> gender e = Some g -> person_key e = k ->
       if lowerIsBetter nm then (value r <= value e)%Q else (value e <= value r)%Q) /\
  NoDup (map person_key (gender_board (leaderboard entries nm) g)).
Proof.
  intros Hnm Hg [e0 [He0 [Hm0 [Hg0 Hk0]]]].
  destruct (gender_bucket_fold entries nm g Hnm Hg) as [Hb Hboard].
  set (sel := fun e => relevant nm e && (if String.eqb g "male" then is_male e else negb (is_male e))) in Hb.
  (* an entry is selected exactly when it has movement [nm] and gender [g] *)
  assert (Hsel : forall e, sel e = true <-> movement e = nm /\ gender e = Some g).
  { intros e. unfold sel, relevant, is_male.
    rewrite !andb_true_iff, String.eqb_eq.
    destruct (gender e) as [ge |]; [| split; [intros [[_ H] _]; discriminate | intros [_ H]; discriminate]].
    destruct Hg as [-> | ->]; simpl.
    - split.
      + intros [[Hm _] Hge]. apply String.eqb_eq in Hge. rewrite Hge. split; [exact Hm | reflexivity].
      + intros [Hm Hge]. injection Hge as Hge. rewrite Hge.
        split; [split; [exact Hm | reflexivity] | reflexivity].
    - split.
      + intros [[Hm Hor] Hnm']. apply negb_true_iff in Hnm'. rewrite Hnm' in Hor. simpl in Hor.
        apply String.eqb_eq in Hor. rewrite Hor. split; [exact Hm | reflexivity].
      + intros [Hm Hge]. injection Hge as Hge. rewrite Hge.
        split; [split; [exact Hm | reflexivity] | reflexivity]. }
  pose proof (best_fold_inv (lowerIsBetter nm) (filter sel entries)) as Hinv.
  rewrite <- Hb in Hinv.
  pose proof Hinv as Hinv'. destruct Hinv as [Hnd [Hkeys [Hbest Hall]]].
  assert (He0s : In e0 (filter sel entries)) by (apply filter_In; split; [exact He0 | apply Hsel; split; assumption]).
  destruct (map_get (gender_bucket entries nm g) k) as [r |] eqn:Hr;
    [| exfalso; apply (Hall e0 He0s); rewrite Hk0; exact Hr].
  split; [apply (count_key_one _ k r Hnd Hr) |].
  split.
  - exists r. split; [reflexivity |].
    destruct (Hbest k r Hr) as [Hrin Hrbest].
    apply filter_In in Hrin as [Hrin Hrsel]. apply Hsel in Hrsel as [Hrm Hrg].
    pose proof (Hkeys (k, r) (map_get_in _ _ _ Hr)) as Hrk. simpl in Hrk.
    split; [exact Hrin |]. split; [exact Hrm |]. split; [exact Hrg |]. split; [exact Hrk |].
    intros e He Hem Heg Hek.
    apply (Hrbest e); [apply filter_In; split; [exact He | apply Hsel; split; assumption] | exact Hek].
  - rewrite Hboard. apply (top5_nodup_keys _ _ _ Hinv').
Qed.

Lemma leaderboard_one_best_row_witness :
  map_get (gender_bucket [ent "Alice" "female" 100; ent "Alice" "female" 120; ent "Bob" "male" 90]
             "6 Rep Bulgarian Split Squat" "female") "Alice" = Some (ent "Alice" "female" 120) /\
  List.length (filter (fun kv => String.eqb (fst kv) "Alice")
    (gender_bucket [ent "Alice" "female" 100; ent "Alice" "female" 120; ent "Bob" "male" 90]
       "6 Rep Bulgarian Split Squat" "female")) = 1%nat.
Proof.
  split; [vm_compute; reflexivity |].
  apply (proj1 (leaderboard_one_best_row
    [ent "Alice" "female" 100; ent "Alice" "female" 120; ent "Bob" "male" 90]
    "6 Rep Bulgarian Split Squat" "female" "Alice" ltac:(discriminate) (or_intror eq_refl)
    (ex_intro _ (ent "Alice" "female" 100)
       (conj (or_introl eq_refl) (conj eq_refl (conj eq_refl (eq_refl : person_key (ent "Alice" "female" 100) = "Alice"))))))).
Defined.

(** Claim C9: the leaderboard is a function of the entries and the movement
    name only; two runs agree as soon as the entries they are given agree on
    the rows of that movement with a recognised gender (in particular on
    equal entry sets). *)
Theorem leaderboard_deterministic (entries1 entries2 : list Entry) (nm : string) :
  filter (relevant nm) entries1 = filter (relevant nm) entries2 ->
  leaderboard entries1 nm = leaderboard entries2 nm.
Proof.
  intros H. unfold leaderboard. destruct (String.eqb nm ""); [reflexivity |].
  rewrite H. reflexivity.
Qed.

Lemma leaderboard_deterministic_witness :
  leaderboard [ent "Alice" "female" 100; ent "Bob" "male" 90] "6 Rep Bulgarian Split Squat" =
  leaderboard [ent "Alice" "female" 100; ent "Bob" "male" 90] "6 Rep Bulgarian Split Squat".
Proof.
  apply leaderboard_deterministic. reflexivity.
Defined.

(** ** JS numbers and [parseFloat] *)

(** A JS number as far as the save path looks at it.  Finite results are
    kept at their exact decimal value; of the rounding to a double only the
    overflow to Infinity and the underflow to zero are modelled. *)
Inductive JSNum := JFin (q : Q) | JPosInf | JNegInf | JNaN.

(** [2^1024 - 2^970]: from here on a decimal rounds to Infinity. *)
Definition overflow_bound : Q := inject_Z (2 ^ 1024 - 2 ^ 970).
(** [2^-1075]: up to here a positive decimal rounds to zero. *)
Definition underflow_bound : Q := 1 # (2 ^ 1075).

Definition round_double (neg : bool) (q : Q) : JSNum :=
  if Qle_bool overflow_bound q then (if neg then JNegInf else JPosInf)
  else if Qle_bool q underflow_bound then JFin 0
  else JFin (if neg then - q else q)%Q.

Definition is_digit (c : ascii) : bool :=
  let n := nat_of_ascii c in (48 <=? n)%nat && (n <=? 57)%nat.

Fixpoint take_digits (s : list ascii) : list ascii * list ascii :=
  match s with
  | c :: s' => if is_digit c then let '(ds, r) := take_digits s' in (c :: ds, r) else ([], s)
  | [] => ([], [])
  end.

Definition digits_value (ds : list ascii) : Z :=
  fold_left (fun acc c => acc * 10 + Z.of_nat (nat_of_ascii c - 48)) ds 0.

Fixpoint skip_ws (s : list ascii) : list ascii :=
  match s with
  | c :: s' => if is_ws c then skip_ws s' else s
  | [] => []
  end.

Definition infinity_chars : list ascii := list_ascii_of_string "Infinity".

Fixpoint starts_with (p s : list ascii) : bool :=
  match p, s with
  | [], _ => true
  | c :: p', d :: s' => Ascii.eqb c d && starts_with p' s'
  | _ :: _, [] => false
  end.

(** The exponent part of the longest decimal-literal prefix: [e]/[E],
    an optional sign and at least one digit; otherwise no exponent. *)
Definition exponent_part (s : list ascii) : Z :=
  match s with
  | c :: s' =>
      if Ascii.eqb c "e" || Ascii.eqb c "E" then
        let '(neg, s'') := match s' with
                           | d :: t => if Ascii.eqb d "-" then (true, t)
                                       else if Ascii.eqb d "+" then (false, t) else (false, s')
                           | [] => (false, s')
                           end in
        let '(es, _) := take_digits s'' in
        match es with [] => 0 | _ => if neg then - digits_value es else digits_value es end
      else 0
  | [] => 0
  end.

(** [parseFloat]: the longest prefix (after leading white space) that is a
    StrDecimalLiteral, rounded to a double. *)
Definition parseFloat (str : string) : JSNum :=
  let s := skip_ws (list_ascii_of_string str) in
  let '(neg, s) := match s with
                   | c :: t => if Ascii.eqb c "-" then (true, t)
                               else if Ascii.eqb c "+" then (false, t) else (false, s)
                   | [] => (false, s)
                   end in
  if starts_with infinity_chars s then (if neg then JNegInf else JPosInf) else
  let '(ds, r1) := take_digits s in
  let '(fs, r2) := match r1 with
                   | c :: t => if Ascii.eqb c "." then take_digits t else ([], r1)
                   | [] => ([], r1)
                   end in
  match app ds fs with
  | [] => JNaN
  | mant =>
      let e := exponent_part r2 - Z.of_nat (List.length fs) in
      let m := digits_value mant in
      let q := if e <? 0 then (m # Z.to_pos (10 ^ (- e)))%Q else inject_Z (m * 10 ^ e) in
      round_double neg q
  end.

(** [!v]: NaN and zero are falsy. *)
Definition js_falsy (v : JSNum) : bool :=
  match v with JFin q => Qeq_bool q 0 | JNaN => true | _ => false end.

(** [v <= 0]: false for NaN. *)
Definition js_le_zero (v : JSNum) : bool :=
  match v with JFin q => Qle_bool q 0 | JNegInf => true | _ => false end.

Example parseFloat_examples :
  parseFloat "12.5" = JFin (125 # 10) /\ parseFloat "." = JNaN /\ parseFloat "  -3e2x" = JFin (-300) /\
  parseFloat "1e400" = JPosInf /\ parseFloat "1e-400" = JFin 0 /\ parseFloat "Infinity" = JPosInf.
Proof. vm_compute. repeat split; reflexivity. Qed.

(** ** Saving an entry *)

(** The (year, month, day) of a day count, inverse of [days_from_civil]. *)
Definition civil_from_days (z0 : Z) : Z * Z * Z :=
  let z := z0 + 719468 in
  let era := z / 146097 in
  let doe := z - era * 146097 in
  let yoe := (doe - doe / 1460 + doe / 36524 - doe / 146096) / 365 in
  let doy := doe - (365 * yoe + yoe / 4 - yoe / 100) in
  let mp := (5 * doy + 2) / 153 in
  let d := doy - (153 * mp + 2) / 5 + 1 in
  let m := if mp <? 10 then mp + 3 else mp - 9 in
  let y := yoe + era * 400 in
  (if m <=? 2 then y + 1 else y, m, d).

(** Decimal digits of a non-negative integer ([String(n)]). *)
Fixpoint dec_aux (fuel : nat) (n : Z) (acc : string) : string :=
  match fuel with
  | O => acc
  | S f =>
      let acc' := String (ascii_of_nat (48 + Z.to_nat (n mod 10))) acc in
      if n <? 10 then acc' else dec_aux f (n / 10) acc'
  end.

Definition dec_string (n : Z) : string := dec_aux (S (Z.to_nat (Z.log2 (Z.max n 1)))) n "".

(** [String(n).padStart(2, '0')] for 0 <= n < 100. *)
Definition pad2 (n : Z) : string := if n <? 10 then "0" ++ dec_string n else dec_string n.

(** [isoLocal]: [`${y}-${m}-${day}`] of the local calendar day. *)
Definition isoLocal (tz d : Z) : string :=
  let '(y, m, dd) := civil_from_days (local_day tz d) in
  dec_string y ++ "-" ++ pad2 m ++ "-" ++ pad2 dd.

Example isoLocal_example : isoLocal (-18000000) (local_date (-18000000) 2026 1 11) = "2026-01-11".
Proof. vm_compute. reflexivity. Qed.

(** The [row] object [saveEntry] sends to the store. *)
Record Row := mkRow {
  r_user_id : string;
  r_date : string;
  r_movement : string;
  r_value : JSNum;
  r_unit : string;
  r_name : string;
  r_gender : string;
  r_notes : option string }.

(** The component state [saveEntry] reads. *)
Record SaveInput := mkSaveInput {
  session : option string;     (* [session.user.id] when signed in *)
  pname : string;              (* profile [name] *)
  pgender : string;            (* profile [gender], '' when unset *)
  selectedDate : Z;
  inputVal : string;
  inputNotes : string }.

Inductive SaveOutcome := NotSignedIn | ProfileMissing | DateDisabled | BadValue | Saved.

(** The checks of [saveEntry] and the row it builds, in the source's order;
    [None] means the function returns before any write. *)
Definition saveEntry_row (tz : Z) (inp : SaveInput) : SaveOutcome * option Row :=
  match session inp with
  | None => (NotSignedIn, None)
  | Some uid =>
      if String.eqb (trim (pname inp)) "" || String.eqb (pgender inp) "" then (ProfileMissing, None) else
      let mov := movementForDate tz (selectedDate inp) in
      if String.eqb (name mov) "TBD" then (DateDisabled, None) else
      let v := parseFloat (inputVal inp) in
      if js_falsy v || js_le_zero v then (BadValue, None) else
      let notes := trim (inputNotes inp) in
      (Saved, Some (mkRow uid (isoLocal tz (selectedDate inp)) (name mov) v (unit mov)
                          (trim (pname inp)) (pgender inp)
                          (if String.eqb notes "" then None else Some notes)))
  end.

Definition same_key (a b : Row) : bool :=
  String.eqb (r_user_id a) (r_user_id b) && String.eqb (r_date a) (r_date b).

(** Modelled from the spec: the entry store's write, an upsert keyed on
    (user_id, date) (the store is external; [saveEntry] calls
    [.upsert(row, { onConflict: ['user_id', 'date'] })]).  The row holding
    the key is replaced by the new one, or the new row is added. *)
Fixpoint upsert (store : list Row) (row : Row) : list Row :=
  match store with
  | [] => [row]
  | r :: rs => if same_key r row then row :: rs else r :: upsert rs row
  end.

(** At most one stored row per (user_id, date). *)
Fixpoint unique_keys (store : list Row) : Prop :=
  match store with
  | [] => True
  | r :: rs => filter (same_key r) rs = [] /\ unique_keys rs
  end.

Definition saveEntry (tz : Z) (inp : SaveInput) (store : list Row) : SaveOutcome * list Row :=
  match saveEntry_row tz inp with
  | (o, Some row) => (o, upsert store row)
  | (o, None) => (o, store)
  end.

(** ** Lemmas on the save path *)

Lemma same_key_iff (a b : Row) :
  same_key a b = true <-> r_user_id a = r_user_id b /\ r_date a = r_date b.
Proof. unfold same_key. rewrite andb_true_iff, !String.eqb_eq. tauto. Qed.

Lemma same_key_refl (a : Row) : same_key a a = true.
Proof. apply same_key_iff. split; reflexivity. Qed.

Lemma same_key_sym (a b : Row) : same_key a b = same_key b a.
Proof.
  destruct (same_key b a) eqn:E.
  - apply same_key_iff in E as [E1 E2]. apply same_key_iff. split; symmetry; assumption.
  - destruct (same_key a b) eqn:E'; [| reflexivity].
    apply same_key_iff in E' as [E1 E2]. rewrite <- E. symmetry. apply same_key_iff. split; symmetry; assumption.
Qed.

Lemma same_key_trans (a b c : Row) : same_key a b = true -> same_key a c = same_key b c.
Proof.
  intros Hab. apply same_key_iff in Hab as [H1 H2]. unfold same_key. rewrite H1, H2. reflexivity.
Qed.

Lemma filter_upsert_nil (f : Row -> bool) (store : list Row) (row : Row) :
  filter f store = [] -> f row = false -> filter f (upsert store row) = [].
Proof.
  induction store as [| r rs IH]; simpl; intros Hs Hrow.
  - rewrite Hrow. reflexivity.
  - destruct (f r) eqn:Hr; [discriminate |].
    destruct (same_key r row); simpl; [rewrite Hrow; exact Hs |].
    rewrite Hr. apply IH; assumption.
Qed.

Lemma filter_ext_same_key (a b : Row) (l : list Row) :
  same_key a b = true -> filter (same_key a) l = filter (same_key b) l.
Proof.
  intros H. induction l as [| x l IH]; simpl; [reflexivity |].
  rewrite (same_key_trans a b x H), IH. reflexivity.
Qed.

Lemma upsert_unique (store : list Row) (row : Row) :
  unique_keys store -> unique_keys (upsert store row).
Proof.
  induction store as [| r rs IH]; simpl; intros Hu.
  - split; [reflexivity | exact I].
  - destruct Hu as [Hr Hrs]. destruct (same_key r row) eqn:E; simpl.
    + split; [| exact Hrs]. rewrite <- (filter_ext_same_key r row rs E). exact Hr.
    + split; [| apply IH; exact Hrs]. apply filter_upsert_nil; assumption.
Qed.

Lemma upsert_single (store : list Row) (row : Row) :
  unique_keys store -> filter (same_key row) (upsert store row) = [row].
Proof.
  induction store as [| r rs IH]; simpl; intros Hu.
  - rewrite same_key_refl. reflexivity.
  - destruct Hu as [Hr Hrs]. destruct (same_key r row) eqn:E; simpl.
    + rewrite same_key_refl. f_equal.
      rewrite same_key_sym in E. rewrite (filter_ext_same_key row r rs E). exact Hr.
    + rewrite same_key_sym, E. apply IH. exact Hrs.
Qed.

Lemma saveEntry_saved (tz : Z) (inp : SaveInput) (store store' : list Row) :
  saveEntry tz inp store = (Saved, store') ->
  exists row, saveEntry_row tz inp = (Saved, Some row) /\ store' = upsert store row.
Proof.
  unfold saveEntry, saveEntry_row.
  destruct (session inp) as [uid |]; [| intros H; discriminate].
  destruct (String.eqb (trim (pname inp)) "" || String.eqb (pgender inp) ""); [intros H; discriminate |].
  destruct (String.eqb (name (movementForDate tz (selectedDate inp))) "TBD"); [intros H; discriminate |].
  destruct (js_falsy (parseFloat (inputVal inp)) || js_le_zero (parseFloat (inputVal inp)));
    [intros H; discriminate |].
  intros H. injection H as <-. eexists. split; reflexivity.
Qed.

(** ** Claims about saving *)

(** Claim C4: starting from a store with at most one row per
    (user_id, date), two successful saves by the same user for the same
    local day leave exactly one row with that key, and it is the row the
    second save built (its movement, value, unit, name, gender and notes). *)
Theorem saveEntry_twice_one_row (tz : Z) (inp1 inp2 : SaveInput) (s s1 s2 : list Row) :
  unique_keys s ->
  saveEntry tz inp1 s = (Saved, s1) ->
  saveEntry tz inp2 s1 = (Saved, s2) ->
  session inp1 = session inp2 ->
  isoLocal tz (selectedDate inp1) = isoLocal tz (selectedDate inp2) ->
  exists row2, saveEntry_row tz inp2 = (Saved, Some row2) /\ filter (same_key row2) s2 = [row2].
Proof.
  intros Hu H1 H2 _ _.
  destruct (saveEntry_saved tz inp1 s s1 H1) as [row1 [_ ->]].
  destruct (saveEntry_saved tz inp2 _ s2 H2) as [row2 [Hrow2 ->]].
  exists row2. split; [exact Hrow2 |].
  apply upsert_single. apply upsert_unique. exact Hu.
Qed.

Definition save_ann (v : string) (d : Z) : SaveInput :=
  mkSaveInput (Some "u1") "Ann" "female" d v "".

Lemma saveEntry_twice_one_row_witness :
  exists row2,
    saveEntry_row 0 (save_ann "120" (local_date 0 2025 9 1)) = (Saved, Some row2) /\
    filter (same_key row2)
      (snd (saveEntry 0 (save_ann "120" (local_date 0 2025 9 1))
              (snd (saveEntry 0 (save_ann "100" (local_date 0 2025 9 1)) [])))) = [row2].
Proof.
  apply (saveEntry_twice_one_row 0 (save_ann "100" (local_date 0 2025 9 1))
           (save_ann "120" (local_date 0 2025 9 1)) []
           (snd (saveEntry 0 (save_ann "100" (local_date 0 2025 9 1)) []))
           (snd (saveEntry 0 (save_ann "120" (local_date 0 2025 9 1))
              (snd (saveEntry 0 (save_ann "100" (local_date 0 2025 9 1)) []))))).
  - exact I.
  - vm_compute. reflexivity.
  - vm_compute. reflexivity.
  - reflexivity.
  - reflexivity.
Defined.

(** Claim C6: a date outside the inclusive bounds of every configured cycle
    resolves to the TBD sentinel (name ["TBD"], empty unit), and
    [saveEntry] on that date builds no row and leaves the store as it is. *)
Theorem movementForDate_outside_cycles (tz d : Z) :
  (forall c s e, In c CYCLES -> getCycleBounds tz c = (s, e) -> ~ (s <= startOfDay tz d <= e)) ->
  movementForDate tz d = TBD /\ name (movementForDate tz d) = "TBD" /\ unit (movementForDate tz d) = "" /\
  (forall inp store, selectedDate inp = d ->
     snd (saveEntry_row tz inp) = None /\ saveEntry tz inp store = (fst (saveEntry_row tz inp), store)).
Proof.
  intros Hout.
  assert (Htbd : movementForDate tz d = TBD).
  { unfold movementForDate, movementForDate_in.
    rewrite getCycleForDate_in_none; [reflexivity |].
    intros c Hc. destruct (getCycleBounds tz c) as [s e] eqn:Hb.
    destruct (in_cycle tz c d) eqn:E; [| reflexivity].
    exfalso. apply (Hout c s e Hc Hb). apply (in_cycle_bounds tz d c s e Hb). exact E. }
  split; [exact Htbd |]. rewrite Htbd. split; [reflexivity |]. split; [reflexivity |].
  intros inp store Hd.
  assert (Hn : snd (saveEntry_row tz inp) = None).
  { unfold saveEntry_row. rewrite Hd, Htbd.
    destruct (session inp); [| reflexivity].
    destruct (String.eqb (trim (pname inp)) "" || String.eqb (pgender inp) ""); reflexivity. }
  split; [exact Hn |].
  unfold saveEntry. destruct (saveEntry_row tz inp) as [o [row |]]; [discriminate | reflexivity].
Qed.

Lemma movementForDate_outside_cycles_witness :
  movementForDate 0 (local_date 0 2025 1 1) = TBD.
Proof.
  apply (movementForDate_outside_cycles 0 (local_date 0 2025 1 1)).
  intros c s e Hc Hb. simpl in Hc.
  repeat (destruct Hc as [Hc | Hc]; [subst c; vm_compute in Hb; injection Hb as <- <-; intros [H1 H2];
      apply Z.leb_le in H1; apply Z.leb_le in H2; vm_compute in H1, H2; discriminate | ]).
  contradiction.
Defined.

(** A digits-only input the numeric field accepts: ["1"] and 400 zeros. *)
Definition big_input : string := string_of_list_ascii ("1"%char :: repeat "0"%char 400).

(** Claim C7 (counterexample): [saveEntry] does not reject every non-finite
    parse.  The digits-only input [big_input] parses to Infinity, which is
    neither falsy nor [<= 0], so a row with value Infinity is built and
    upserted. *)
Lemma saveEntry_infinite_value_counterexample :
  parseFloat big_input = JPosInf /\
  option_map r_value (snd (saveEntry_row 0 (save_ann big_input (local_date 0 2025 9 1)))) = Some JPosInf /\
  fst (saveEntry 0 (save_ann big_input (local_date 0 2025 9 1)) []) = Saved.
Proof. vm_compute. repeat split; reflexivity. Qed.

(** The values [!v || v <= 0] rejects. *)
Definition rejected_value (v : JSNum) : Prop :=
  match v with
  | JNaN | JNegInf => True
  | JFin q => (q <= 0)%Q
  | JPosInf => False
  end.

(** Claim C7 (as amended): [saveEntry] performs no write when the parsed
    value is NaN, zero, negative or -Infinity; a row it does write carries
    the parsed value, which is either a positive finite number or
    +Infinity (no finiteness check). *)
Theorem saveEntry_value_check (tz : Z) (inp : SaveInput) (store : list Row) :
  (rejected_value (parseFloat (inputVal inp)) ->
     snd (saveEntry_row tz inp) = None /\ snd (saveEntry tz inp store) = store) /\
  (forall row, snd (saveEntry_row tz inp) = Some row ->
     r_value row = parseFloat (inputVal inp) /\
     (r_value row = JPosInf \/ exists q, r_value row = JFin q /\ (0 < q)%Q)).
Proof.
  assert (Hrej : rejected_value (parseFloat (inputVal inp)) <->
                 js_falsy (parseFloat (inputVal inp)) || js_le_zero (parseFloat (inputVal inp)) = true).
  { destruct (parseFloat (inputVal inp)) as [q | | |]; simpl; try (split; intros; first [reflexivity | exact I | discriminate | contradiction]).
    rewrite orb_true_iff, Qle_bool_iff. split.
    - intros H. right. exact H.
    - intros [H | H]; [apply Qeq_bool_eq in H; rewrite H; apply Qle_refl | exact H]. }
  unfold saveEntry, saveEntry_row.
  destruct (session inp) as [uid |]; [| split; [split; reflexivity | intros row H; discriminate]].
  destruct (String.eqb (trim (pname inp)) "" || String.eqb (pgender inp) "");
    [split; [split; reflexivity | intros row H; discriminate] |].
  destruct (String.eqb (name (movementForDate tz (selectedDate inp))) "TBD");
    [split; [split; reflexivity | intros row H; discriminate] |].
  destruct (js_falsy (parseFloat (inputVal inp)) || js_le_zero (parseFloat (inputVal inp))) eqn:Hv.
  - split; [split; reflexivity | intros row H; discriminate].
  - split.
    + intros Hr. apply Hrej in Hr. congruence.
    + intros row H. simpl in H. injection H as <-. simpl. split; [reflexivity |].
      destruct (parseFloat (inputVal inp)) as [q | | |] eqn:Ep; simpl in Hv.
      * right. exists q. split; [reflexivity |].
        apply orb_false_iff in Hv as [_ Hv]. apply Qnot_le_lt. intros Hle.
        apply Qle_bool_iff in Hle. congruence.
      * left. reflexivity.
      * discriminate.
      * discriminate.
Qed.

Lemma saveEntry_value_check_witness :
  snd (saveEntry_row 0 (save_ann "0.0" (local_date 0 2025 9 1))) = None.
Proof.
  apply (proj1 (saveEntry_value_check 0 (save_ann "0.0" (local_date 0 2025 9 1)) [])).
  vm_compute. discriminate.
Defined.

(** ** Number formatters for the charts

    A series value is a JS number, i.e. a binary64 float: Rocq's primitive
    [float], whose [mul], [div], [sub] round exactly as JS does.  Number to
    string conversions work on the exact rational value of the double.
    [toLocaleString] uses the en-US format. *)
Module Fmt.
Local Open Scope list_scope.

(** The exact value of a finite double. *)
Definition to_Q (x : float) : Q :=
  match Prim2SF x with
  | S754_finite s m e =>
      let n := if s then Zneg m else Zpos m in
      if e <? 0 then (n # Z.to_pos (2 ^ (- e)))%Q else inject_Z (n * 2 ^ e)
  | _ => 0%Q
  end.

Definition two52 : float := Eval compute in SF2Prim (S754_finite false 1 52).

(** [Math.trunc] on a finite double: doubles of magnitude [>= 2^52] are
    integers already; below, the integer part is exact and keeps the sign
    ([Math.trunc(-0.5)] is [-0]). *)
Definition js_trunc (x : float) : float :=
  if negb (is_finite x) || PrimFloat.leb two52 (PrimFloat.abs x) then x else
  let q := to_Q x in
  let t := Z.quot (Qnum q) (Zpos (Qden q)) in
  match t with
  | Z0 => if get_sign x then neg_zero else zero
  | Zpos p => SF2Prim (S754_finite false p 0)
  | Zneg p => SF2Prim (S754_finite true p 0)
  end.

(** [x % 1] for a finite double: [x - Math.trunc(x)], which is exact. *)
Definition js_mod1 (x : float) : float := PrimFloat.sub x (js_trunc x).

(** [Math.round]: the integer nearest to [x], ties towards +Infinity. *)
Definition js_round (x : float) : Z := Qfloor (to_Q x + (1 # 2))%Q.

Definition dec_list (n : Z) : list ascii := list_ascii_of_string (dec_string n).

(** [String(k)] for an integer [k]. *)
Definition int_string (k : Z) : list ascii :=
  if k <? 0 then "-"%char :: dec_list (- k) else dec_list k.

(** Digit groups of three, separated by commas, from the right. *)
Fixpoint group_rev (l : list ascii) : list ascii :=
  match l with
  | a :: b :: c :: (_ :: _) as rest => a :: b :: c :: ","%char :: group_rev rest
  | _ => l
  end.

Definition group (ds : list ascii) : list ascii := rev (group_rev (rev ds)).

Fixpoint strip_zeros_rev (l : list ascii) : list ascii :=
  match l with
  | c :: l' => if Ascii.eqb c "0" then strip_zeros_rev l' else l
  | [] => []
  end.

(** *** The digits of a double ([Number::toString])

    [toLocaleString] (ICU) formats the decimal that [Number::toString]
    prints for the double: the shortest one that reads back as the double. *)

(** [b ^ e] for any integer [e], as a rational. *)
Definition qpow (b e : Z) : Q :=
  if 0 <=? e then inject_Z (b ^ e) else 1 # Z.to_pos (b ^ (- e)).

Fixpoint zlog_aux (b : Z) (fuel : nat) (n : Z) : Z :=
  match fuel with
  | O => 0
  | S f => if n <? b then 0 else 1 + zlog_aux b f (n / b)
  end.

(** [floor (log_b n)] for [n >= 1]. *)
Definition zlog (b n : Z) : Z := zlog_aux b (S (Z.to_nat (Z.log2 n))) n.

(** [floor (log_b q)] for [q > 0], from the logarithms of numerator and
    denominator ([logb] is [floor (log_b)] on positive integers). *)
Definition qlog (logb : Z -> Z) (b : Z) (q : Q) : Z :=
  let l := logb (Qnum q) - logb (Zpos (Qden q)) in
  if Qle_bool (qpow b l) q then l else l - 1.

(** A positive double [q] is [m * 2^e] with [2^52 <= m < 2^53], or
    [e = -1074] when it is subnormal.  Its neighbours are [gap_up] above and
    [gap_down] below it (half as far below a power of two). *)
Definition binade (q : Q) : Z := Z.max (qlog Z.log2 2 q - 52) (-1074).

Definition significand (q : Q) : Z := Qfloor (q / qpow 2 (binade q)).

Definition gap_up (q : Q) : Q := qpow 2 (binade q).

Definition gap_down (q : Q) : Q :=
  if (significand q =? 2 ^ 52) && (-1074 <? binade q) then qpow 2 (binade q - 1) else gap_up q.

(** A decimal [d] reads back as the positive double [q] when it rounds to
    it (to nearest, ties to even): it lies between the midpoints to the
    neighbours, the midpoints included when [q]'s significand is even.  Past
    the largest double the upper midpoint is where rounding overflows. *)
Definition reads_back (q d : Q) : bool :=
  let lo := (q - gap_down q / 2)%Q in
  let hi := (q + gap_up q / 2)%Q in
  if Z.even (significand q) then Qle_bool lo d && Qle_bool d hi
  else negb (Qle_bool d lo) && negb (Qle_bool hi d).

(** The decimals [s * 10^(n-k)] with [k] digits on either side of [q]; of
    those that read back as [q], the nearer to [q], the even [s] on a tie. *)
Definition candidate (q : Q) (n k : Z) : option Q :=
  let p := qpow 10 (n - k) in
  let t := (q / p)%Q in
  let s1 := Qfloor t in
  let d1 := (inject_Z s1 * p)%Q in
  let d2 := (inject_Z (s1 + 1) * p)%Q in
  match reads_back q d1, reads_back q d2 with
  | true, true =>
      match Qcompare (t - inject_Z s1) (inject_Z (s1 + 1) - t) with
      | Lt => Some d1
      | Gt => Some d2
      | Eq => if Z.even s1 then Some d1 else Some d2
      end
  | true, false => Some d1
  | false, true => Some d2
  | false, false => None
  end.

Fixpoint shortest_from (q : Q) (n k : Z) (fuel : nat) : option Q :=
  match fuel with
  | O => None
  | S f =>
      match candidate q n k with
      | Some d => Some d
      | None => shortest_from q n (k + 1) f
      end
  end.

(** The value of the decimal [Number::toString] prints for a double of
    value [q >= 0]: the fewest significant digits [k] (17 always suffice)
    for which some [s * 10^(n-k)] reads back as the double, where [n] places
    the leading digit ([10^(n-1) <= q < 10^n]). *)
Definition shortest (q : Q) : Q :=
  if Qeq_bool q 0 then 0%Q else
  match shortest_from q (qlog (zlog 10) 10 q + 1) 1 17 with
  | Some d => d
  | None => q
  end.

(** [toLocaleString] (en-US) with at most [f] fraction digits, of a number
    whose [Number::toString] decimal is [q >= 0] and whose sign is [neg]:
    rounded half away from zero to [f] digits, trailing zeros of the
    fraction dropped, thousands grouped. *)
Definition locale_dec (f : nat) (neg : bool) (q : Q) : list ascii :=
  let p := 10 ^ Z.of_nat f in
  let n := Qfloor (q * inject_Z p + (1 # 2))%Q in
  let ip := n / p in
  let fp := dec_list (n mod p) in
  let fp := repeat "0"%char (f - List.length fp) ++ fp in
  let fp := rev (strip_zeros_rev (rev fp)) in
  (if neg then ["-"%char] else []) ++ group (dec_list ip) ++
  match fp with [] => [] | _ => "."%char :: fp end.

(** [k.toLocaleString()] for the double of integral value [k] (at most three
    fraction digits by default). *)
Definition locale_int (k : Z) : list ascii :=
  locale_dec 3 (k <? 0) (shortest (inject_Z (Z.abs k))).

(** [x.toLocaleString(undefined, { minimumFractionDigits: 0,
    maximumFractionDigits: f })] (en-US). *)
Definition locale_frac (f : nat) (x : float) : list ascii :=
  locale_dec f (get_sign x) (shortest (Qabs (to_Q x))).

(** [x.toFixed(f)] for [|x| < 1e21]: [n] is the integer with [n / 10^f - x]
    closest to zero, the larger one on a tie. *)
Definition toFixed_pos (f : nat) (q : Q) : list ascii :=
  let n := Qfloor (q * inject_Z (10 ^ Z.of_nat f) + (1 # 2))%Q in
  let m := dec_list n in
  if Nat.eqb f 0 then m else
  let m := if (List.length m <=? f)%nat then repeat "0"%char (f + 1 - List.length m) ++ m else m in
  let k := (List.length m - f)%nat in
  firstn k m ++ "."%char :: skipn k m.

Definition toFixed (f : nat) (x : float) : list ascii :=
  let q := to_Q x in
  if Qle_bool 0 q then toFixed_pos f q else "-"%char :: toFixed_pos f (- q)%Q.

(** [.replace(/\.0$/, '')] *)
Definition strip_dot0 (l : list ascii) : list ascii :=
  match rev l with
  | c :: d :: r => if Ascii.eqb c "0" && Ascii.eqb d "." then rev r else l
  | _ => l
  end.

(** [.replace(/0+$/, '')] *)
Definition strip_zeros (l : list ascii) : list ascii := rev (strip_zeros_rev (rev l)).

(** [.replace(/\.$/, '')] *)
Definition strip_dot (l : list ascii) : list ascii :=
  match rev l with
  | c :: r => if Ascii.eqb c "." then rev r else l
  | [] => l
  end.

Definition formatNiceNumber (n : float) : string :=
  if negb (is_finite n) then "" else
  let a := Qabs (to_Q n) in
  string_of_list_ascii
    (if Qle_bool 1000 a then locale_int (js_round n)
     else if Qle_bool 100 a then int_string (js_round n)
     else if Qle_bool 10 a then int_string (js_round n)
     else if Qle_bool 1 a then strip_dot0 (toFixed 1 n)
     else strip_dot (strip_zeros (toFixed 2 n))).

Definition formatExactValue (n : float) : string :=
  if negb (is_finite n) then "" else
  let truncated := PrimFloat.div (js_trunc (PrimFloat.mul n 100%float)) 100%float in
  let hasDecimals := PrimFloat.ltb 0%float (PrimFloat.abs (js_mod1 truncated)) in
  let oneDecimal :=
    PrimFloat.ltb 0%float
      (PrimFloat.abs (PrimFloat.sub (PrimFloat.div (js_trunc (PrimFloat.mul truncated 10%float)) 10%float)
                                    (js_trunc truncated))) in
  let maxFrac := (if hasDecimals then (if oneDecimal then 1 else 2) else 0)%nat in
  string_of_list_ascii (locale_frac maxFrac truncated).

Example formatters_examples :
  formatNiceNumber 1234.5%float = "1,235" /\ formatNiceNumber 250.5%float = "251" /\
  formatNiceNumber 42.25%float = "42" /\ formatNiceNumber 5%float = "5" /\
  formatNiceNumber 5.25%float = "5.3" /\ formatNiceNumber 0.5%float = "0.5" /\
  formatNiceNumber 0%float = "0" /\ formatNiceNumber (-3.5)%float = "-3.5" /\
  formatNiceNumber infinity = "" /\
  formatExactValue 12%float = "12" /\ formatExactValue 1234.5%float = "1,234.5" /\
  formatExactValue 1.0625%float = "1.06".
Proof. vm_compute. repeat split; reflexivity. Qed.

(** [formatExactValue] does not keep two truncated decimals as its comment
    says: when the tenths digit of the truncated value is non-zero it
    allows one fraction digit only, and [toLocaleString] rounds the
    hundredths away (1.25 is shown as "1.3", 12.375 as "12.4"). *)
Example formatExactValue_rounds :
  formatExactValue 1.25%float = "1.3" /\ formatExactValue 12.375%float = "12.4".
Proof. vm_compute. split; reflexivity. Qed.

(** *** Lemmas on the formatters *)

Definition all_digits (l : list ascii) : Prop := Forall (fun c => is_digit c = true) l.

Lemma digit_char (n : Z) : is_digit (ascii_of_nat (48 + Z.to_nat (n mod 10))) = true.
Proof.
  pose proof (Z.mod_pos_bound n 10 ltac:(lia)) as Hb.
  unfold is_digit. rewrite nat_ascii_embedding by lia.
  apply andb_true_iff. split; apply Nat.leb_le; lia.
Qed.

Lemma dec_aux_digits (fuel : nat) (n : Z) (acc : string) :
  all_digits (list_ascii_of_string acc) ->
  all_digits (list_ascii_of_string (dec_aux fuel n acc)) /\
  (fuel <> O -> list_ascii_of_string (dec_aux fuel n acc) <> []).
Proof.
  revert n acc. induction fuel as [| f IH]; intros n acc Hacc; simpl.
  - split; [exact Hacc | intros H; contradiction].
  - assert (Hd : all_digits (ascii_of_nat (48 + Z.to_nat (n mod 10)) :: list_ascii_of_string acc))
      by (constructor; [apply digit_char | exact Hacc]).
    destruct (n <? 10).
    + simpl. split; [exact Hd | intros _; discriminate].
    + destruct (IH (n / 10) (String (ascii_of_nat (48 + Z.to_nat (n mod 10))) acc) Hd) as [H1 H2].
      split; [exact H1 |]. intros _. destruct f as [| f'].
      * simpl. discriminate.
      * apply H2. discriminate.
Qed.

Lemma dec_list_digits (n : Z) : all_digits (dec_list n) /\ dec_list n <> [].
Proof.
  unfold dec_list, dec_string.
  destruct (dec_aux_digits (S (Z.to_nat (Z.log2 (Z.max n 1)))) n "" (Forall_nil _)) as [H1 H2].
  split; [exact H1 | apply H2; discriminate].
Qed.

Lemma toFixed_pos_shape (f : nat) (q : Q) :
  f <> O ->
  exists a b, all_digits a /\ a <> [] /\ all_digits b /\ List.length b = f /\
              toFixed_pos f q = a ++ "."%char :: b.
Proof.
  intros Hf. unfold toFixed_pos.
  set (n := Qfloor (q * inject_Z (10 ^ Z.of_nat f) + (1 # 2))%Q).
  destruct (dec_list_digits n) as [Hdig Hne].
  destruct (Nat.eqb_spec f 0) as [E | _]; [contradiction |].
  set (m := dec_list n) in *.
  set (m' := if (List.length m <=? f)%nat then repeat "0"%char (f + 1 - List.length m) ++ m else m).
  assert (Hm' : all_digits m' /\ (f + 1 <= List.length m')%nat).
  { unfold m'. destruct (Nat.leb_spec (List.length m) f).
    - split.
      + apply Forall_app. split; [| exact Hdig].
        apply Forall_forall. intros c Hc. apply repeat_spec in Hc. subst c. reflexivity.
      + rewrite length_app, repeat_length. lia.
    - split; [exact Hdig | lia]. }
  destruct Hm' as [Hmd Hml].
  exists (firstn (List.length m' - f) m'), (skipn (List.length m' - f) m').
  pose proof Hmd as Hsplit. unfold all_digits in Hsplit.
  rewrite <- (firstn_skipn (List.length m' - f) m') in Hsplit.
  apply Forall_app in Hsplit as [Hfirst Hskip].
  split; [exact Hfirst |].
  split.
  - intros H. apply (f_equal (@List.length ascii)) in H. rewrite length_firstn in H. simpl in H. lia.
  - split; [exact Hskip |].
    split; [rewrite length_skipn; lia | reflexivity].
Qed.

Lemma toFixed_shape (f : nat) (x : float) :
  f <> O ->
  exists sg a b, (sg = [] \/ sg = ["-"%char]) /\ all_digits a /\ a <> [] /\ all_digits b /\
                 List.length b = f /\ toFixed f x = sg ++ a ++ "."%char :: b.
Proof.
  intros Hf. unfold toFixed. destruct (Qle_bool 0 (to_Q x)).
  - destruct (toFixed_pos_shape f (to_Q x) Hf) as [a [b [H1 [H2 [H3 [H4 H5]]]]]].
    exists [], a, b. repeat split; auto.
  - destruct (toFixed_pos_shape f (- to_Q x)%Q Hf) as [a [b [H1 [H2 [H3 [H4 H5]]]]]].
    exists ["-"%char], a, b. rewrite H5. repeat split; auto.
Qed.

Lemma digit_not_dot (c : ascii) : is_digit c = true -> Ascii.eqb c "." = false.
Proof.
  intros H. destruct (Ascii.eqb_spec c ".") as [-> | _]; [discriminate | reflexivity].
Qed.

Lemma strip_dot0_shape (a : list ascii) (d : ascii) :
  strip_dot0 (a ++ "."%char :: [d]) = if Ascii.eqb d "0" then a else a ++ "."%char :: [d].
Proof.
  unfold strip_dot0. rewrite rev_app_distr. simpl.
  rewrite andb_true_r. destruct (Ascii.eqb d "0"); [apply rev_involutive | reflexivity].
Qed.

Lemma strip_dot_rev (r : list ascii) :
  strip_dot (rev r) = match r with c :: r' => if Ascii.eqb c "." then rev r' else rev r | [] => rev r end.
Proof. unfold strip_dot. rewrite rev_involutive. destruct r; reflexivity. Qed.

Lemma strip_zeros_dot_shape (a : list ascii) (d1 d2 : ascii) :
  is_digit d1 = true -> is_digit d2 = true ->
  strip_dot (strip_zeros (a ++ "."%char :: [d1; d2])) = a \/
  strip_dot (strip_zeros (a ++ "."%char :: [d1; d2])) = a ++ "."%char :: [d1] \/
  strip_dot (strip_zeros (a ++ "."%char :: [d1; d2])) = a ++ "."%char :: [d1; d2].
Proof.
  intros H1 H2. unfold strip_zeros.
  replace (rev (a ++ "."%char :: [d1; d2])) with (d2 :: d1 :: "."%char :: rev a)
    by (rewrite rev_app_distr; reflexivity).
  cbn [strip_zeros_rev].
  destruct (Ascii.eqb d2 "0") eqn:E2.
  - destruct (Ascii.eqb d1 "0") eqn:E1.
    + left. cbn [strip_zeros_rev]. simpl Ascii.eqb. cbv iota.
      rewrite strip_dot_rev. simpl Ascii.eqb. cbv iota. apply rev_involutive.
    + right; left. rewrite strip_dot_rev, (digit_not_dot d1 H1).
      simpl. rewrite rev_involutive, <- app_assoc. reflexivity.
  - right; right. rewrite strip_dot_rev, (digit_not_dot d2 H2).
    simpl. rewrite rev_involutive, <- !app_assoc. reflexivity.
Qed.

Lemma js_round_nearest (x : float) : (Qabs (inject_Z (js_round x) - to_Q x) <= 1 # 2)%Q.
Proof.
  unfold js_round. generalize (to_Q x) as q. intros q.
  pose proof (Qfloor_le (q + (1 # 2))) as H1.
  pose proof (Qlt_floor (q + (1 # 2))) as H2.
  rewrite inject_Z_plus in H2.
  generalize dependent (Qfloor (q + (1 # 2))). intros k H1 H2.
  change (inject_Z 1) with 1%Q in H2.
  apply Qabs_Qle_condition. split; lra.
Qed.

(** At most [k] fraction digits: an optional minus sign, digits, and
    optionally a dot followed by one to [k] digits. *)
Definition at_most_decimals (k : nat) (s : string) : Prop :=
  exists sg a d, (sg = [] \/ sg = ["-"%char]) /\ all_digits a /\ a <> [] /\
    all_digits d /\ d <> [] /\ (List.length d <= k)%nat /\
    (list_ascii_of_string s = sg ++ a \/ list_ascii_of_string s = sg ++ a ++ "."%char :: d).


(** *** Integers below [2^53] are printed in full *)

Lemma qpow_pos (b e : Z) : 0 < b -> (0 < qpow b e)%Q.
Proof.
  intros Hb. unfold qpow. destruct (0 <=? e) eqn:E.
  - apply Z.leb_le in E. change 0%Q with (inject_Z 0). rewrite <- Zlt_Qlt.
    apply Z.pow_pos_nonneg; lia.
  - reflexivity.
Qed.

Lemma qpow_le_1 (b e : Z) : 0 < b -> e <= 0 -> (qpow b e <= 1)%Q.
Proof.
  intros Hb He. unfold qpow. destruct (0 <=? e) eqn:E.
  - apply Z.leb_le in E. replace e with 0 by lia. apply Qle_refl.
  - unfold Qle. simpl. lia.
Qed.

Lemma qpow_nonneg_exp (b e : Z) : 0 <= e -> qpow b e = inject_Z (b ^ e).
Proof. intros He. unfold qpow. apply Z.leb_le in He. rewrite He. reflexivity. Qed.

Lemma zlog_aux_nonneg (b : Z) (f : nat) (n : Z) : 0 <= zlog_aux b f n.
Proof.
  revert n. induction f as [| f IH]; intros n; [simpl; lia | cbn [zlog_aux]].
  destruct (n <? b); cbv iota; [lia | specialize (IH (n / b)); lia].
Qed.

Lemma zlog_aux_pow_le (f : nat) (n : Z) : 1 <= n -> 10 ^ zlog_aux 10 f n <= n.
Proof.
  revert n. induction f as [| f IH]; intros n Hn; [simpl; lia | cbn [zlog_aux]].
  destruct (Z.ltb_spec n 10); cbv iota; [lia |].
  assert (H1 : 1 <= n / 10) by (apply Z.div_le_lower_bound; lia).
  specialize (IH (n / 10) H1). pose proof (zlog_aux_nonneg 10 f (n / 10)).
  rewrite Z.add_comm, Z.pow_add_r by lia.
  pose proof (Z.mul_div_le n 10 ltac:(lia)). change (10 ^ 1) with 10. nia.
Qed.

Lemma int_near (z m : Z) :
  (inject_Z m - (1 # 2) <= inject_Z z)%Q -> (inject_Z z <= inject_Z m + (1 # 2))%Q -> z = m.
Proof.
  intros H1 H2. destruct (Z.lt_trichotomy z m) as [Hl | [He | Hg]]; [exfalso | exact He | exfalso].
  - assert (H : (inject_Z (z + 1) <= inject_Z m)%Q) by (rewrite <- Zle_Qle; lia).
    rewrite inject_Z_plus in H. change (inject_Z 1) with 1%Q in H. lra.
  - assert (H : (inject_Z (m + 1) <= inject_Z z)%Q) by (rewrite <- Zle_Qle; lia).
    rewrite inject_Z_plus in H. change (inject_Z 1) with 1%Q in H. lra.
Qed.

Lemma binade_int_le_0 (m : Z) : 1 <= m < 2 ^ 53 -> binade (inject_Z m) <= 0.
Proof.
  intros Hm. unfold binade, qlog. cbn [Qnum Qden inject_Z]. change (Z.log2 1) with 0.
  assert (Hl : Z.log2 m < 53) by (apply Z.log2_lt_pow2; lia).
  destruct (Qle_bool _ _); lia.
Qed.

Lemma gaps_int (m : Z) : 1 <= m < 2 ^ 53 ->
  (0 < gap_up (inject_Z m) <= 1)%Q /\ (0 < gap_down (inject_Z m) <= 1)%Q.
Proof.
  intros Hm. pose proof (binade_int_le_0 m Hm) as He.
  assert (Hu : (0 < gap_up (inject_Z m) <= 1)%Q).
  { unfold gap_up. split; [apply qpow_pos; lia | apply qpow_le_1; lia]. }
  split; [exact Hu |]. unfold gap_down.
  destruct (_ && _); [| exact Hu].
  split; [apply qpow_pos; lia | apply qpow_le_1; lia].
Qed.

Lemma Qle_bool_false_lt (a b : Q) : Qle_bool a b = false -> (b < a)%Q.
Proof.
  intros H. destruct (Qlt_le_dec b a) as [Hl | Hl]; [exact Hl |].
  apply Qle_bool_iff in Hl. congruence.
Qed.

(** A decimal that reads back as an integer [m < 2^53] is within [1/2] of it. *)
Lemma reads_back_int (m : Z) (d : Q) : 1 <= m < 2 ^ 53 ->
  reads_back (inject_Z m) d = true -> (inject_Z m - (1 # 2) <= d <= inject_Z m + (1 # 2))%Q.
Proof.
  intros Hm. destruct (gaps_int m Hm) as [[Hu1 Hu2] [Hd1 Hd2]].
  unfold reads_back, Qdiv. cbv zeta. change (Qinv 2) with (1 # 2). destruct (Z.even _).
  - rewrite andb_true_iff, !Qle_bool_iff. intros [H1 H2]. split; lra.
  - rewrite andb_true_iff, !negb_true_iff. intros [H1 H2].
    apply Qle_bool_false_lt in H1. apply Qle_bool_false_lt in H2. split; lra.
Qed.

Lemma reads_back_self (m : Z) (d : Q) : 1 <= m < 2 ^ 53 -> (d == inject_Z m)%Q ->
  reads_back (inject_Z m) d = true.
Proof.
  intros Hm Hd. destruct (gaps_int m Hm) as [[Hu1 Hu2] [Hd1 Hd2]].
  unfold reads_back, Qdiv. cbv zeta. change (Qinv 2) with (1 # 2). destruct (Z.even _).
  - rewrite andb_true_iff, !Qle_bool_iff. split; lra.
  - rewrite andb_true_iff, !negb_true_iff. split.
    + destruct (Qle_bool _ _) eqn:E; [apply Qle_bool_iff in E; lra | reflexivity].
    + destruct (Qle_bool _ _) eqn:E; [apply Qle_bool_iff in E; lra | reflexivity].
Qed.

Lemma candidate_shape (q : Q) (n k : Z) (d : Q) : candidate q n k = Some d ->
  reads_back q d = true /\ exists s, d = (inject_Z s * qpow 10 (n - k))%Q.
Proof.
  unfold candidate.
  destruct (reads_back q (inject_Z (Qfloor (q / qpow 10 (n - k))) * qpow 10 (n - k))) eqn:E1;
  destruct (reads_back q (inject_Z (Qfloor (q / qpow 10 (n - k)) + 1) * qpow 10 (n - k))) eqn:E2;
  try destruct (Qcompare _ _); try destruct (Z.even _); intros H; try discriminate H;
  injection H as <-; (split; [assumption | eexists; reflexivity]).
Qed.

Lemma candidate_int (m n k : Z) (d : Q) : 1 <= m < 2 ^ 53 -> k <= n ->
  candidate (inject_Z m) n k = Some d -> (d == inject_Z m)%Q.
Proof.
  intros Hm Hk H. destruct (candidate_shape _ _ _ _ H) as [Hr [s ->]].
  apply reads_back_int in Hr; [| exact Hm].
  rewrite qpow_nonneg_exp, <- inject_Z_mult in Hr |- * by lia.
  destruct Hr as [H1 H2]. rewrite (int_near _ _ H1 H2). reflexivity.
Qed.

Lemma candidate_int_here (m n : Z) : 1 <= m < 2 ^ 53 -> candidate (inject_Z m) n n <> None.
Proof.
  intros Hm. unfold candidate. rewrite Z.sub_diag.
  assert (Hf : Qfloor (inject_Z m / qpow 10 0) = m).
  { unfold qpow. simpl. unfold Qfloor, Qdiv, Qmult, Qinv. simpl. rewrite Z.mul_1_r. apply Z.div_1_r. }
  rewrite Hf, (reads_back_self m); [| exact Hm | unfold qpow; simpl; change (inject_Z 1) with 1%Q; ring].
  destruct (reads_back _ _); [destruct (Qcompare _ _); try destruct (Z.even _) |]; discriminate.
Qed.

Lemma shortest_from_int (m n : Z) (fuel : nat) (k : Z) : 1 <= m < 2 ^ 53 ->
  k <= n < k + Z.of_nat fuel ->
  exists d, shortest_from (inject_Z m) n k fuel = Some d /\ (d == inject_Z m)%Q.
Proof.
  intros Hm. revert k. induction fuel as [| f IH]; intros k Hk; [lia |].
  simpl. destruct (candidate (inject_Z m) n k) as [d |] eqn:E.
  - exists d. split; [reflexivity | exact (candidate_int m n k d Hm (proj1 Hk) E)].
  - assert (k <> n) by (intros ->; exact (candidate_int_here m n Hm E)).
    apply IH. lia.
Qed.

Lemma shortest_int (m : Z) : 1 <= m < 2 ^ 53 -> (shortest (inject_Z m) == inject_Z m)%Q.
Proof.
  intros Hm. unfold shortest.
  replace (Qeq_bool (inject_Z m) 0) with false
    by (symmetry; apply not_true_iff_false; rewrite Qeq_bool_iff; unfold Qeq; simpl; lia).
  set (n := qlog (zlog 10) 10 (inject_Z m) + 1).
  assert (Hn : 1 <= n <= 16).
  { unfold n, qlog. cbn [Qnum Qden inject_Z]. change (zlog 10 1) with 0. rewrite Z.sub_0_r.
    pose proof (zlog_aux_pow_le (S (Z.to_nat (Z.log2 m))) m ltac:(lia)) as Hp.
    pose proof (zlog_aux_nonneg 10 (S (Z.to_nat (Z.log2 m))) m) as H0.
    unfold zlog. set (l := zlog_aux 10 (S (Z.to_nat (Z.log2 m))) m) in *.
    replace (Qle_bool (qpow 10 l) (inject_Z m)) with true
      by (symmetry; apply Qle_bool_iff; rewrite qpow_nonneg_exp by lia; rewrite <- Zle_Qle; exact Hp).
    assert (l < 16).
    { destruct (Z.lt_ge_cases l 16) as [H | H]; [exact H | exfalso].
      pose proof (Z.pow_le_mono_r 10 16 l ltac:(lia) H). lia. }
    lia. }
  destruct (shortest_from_int m n 17 1 Hm ltac:(lia)) as [d [-> Hd]]. exact Hd.
Qed.

Lemma locale_dec_compat (f : nat) (neg : bool) (q1 q2 : Q) : (q1 == q2)%Q ->
  locale_dec f neg q1 = locale_dec f neg q2.
Proof.
  intros H. unfold locale_dec.
  assert (E : Qfloor (q1 * inject_Z (10 ^ Z.of_nat f) + (1 # 2)) =
              Qfloor (q2 * inject_Z (10 ^ Z.of_nat f) + (1 # 2))) by (apply Qfloor_comp; rewrite H; reflexivity).
  rewrite E. reflexivity.
Qed.

Lemma locale_dec_int (neg : bool) (m : Z) : 0 <= m ->
  locale_dec 3 neg (inject_Z m) = (if neg then ["-"%char] else []) ++ group (dec_list m).
Proof.
  intros Hm. unfold locale_dec.
  assert (E : Qfloor (inject_Z m * inject_Z (10 ^ Z.of_nat 3) + (1 # 2)) = m * 1000).
  { unfold Qfloor, Qmult, Qplus. simpl. Z.div_mod_to_equations. lia. }
  rewrite E, Z.div_mul, Z.mod_mul by lia. simpl. rewrite app_nil_r. reflexivity.
Qed.

(** [Math.round(x).toLocaleString()] when the integer is below [2^53]: its
    decimal digits in full, grouped by thousands. *)
Lemma locale_int_small (k : Z) : k <> 0 -> Z.abs k < 2 ^ 53 ->
  locale_int k = (if k <? 0 then ["-"%char] else []) ++ group (dec_list (Z.abs k)).
Proof.
  intros Hk Hb. unfold locale_int.
  rewrite (locale_dec_compat _ _ _ _ (shortest_int (Z.abs k) ltac:(lia))).
  apply locale_dec_int. lia.
Qed.

(** From [2^53] on, [toLocaleString] shows the double's [Number::toString]
    digits, not the integer it is: [2^60] and [2^64] end in zeros, and the
    double nearest [1e23] is shown as [1e23]; [toLocaleString] also rounds
    the decimal [1.45] rather than the double below it. *)
Example toLocaleString_shortest_digits :
  formatNiceNumber 1152921504606846976%float = "1,152,921,504,606,847,000" /\
  formatNiceNumber 18446744073709551616%float = "18,446,744,073,709,552,000" /\
  formatNiceNumber 0x1.52d02c7e14af6p+76%float = "100,000,000,000,000,000,000,000" /\
  formatExactValue 0x1.7333333333333p+0%float = "1.5".
Proof. vm_compute. repeat split; reflexivity. Qed.

End Fmt.

Import Fmt.

Lemma Qle_bool_false (c a : Q) : (a < c)%Q -> Qle_bool c a = false.
Proof.
  intros H. destruct (Qle_bool c a) eqn:E; [| reflexivity].
  apply Qle_bool_iff in E. exfalso. lra.
Qed.

(** Claim C8 (counterexample): the axis-label formatter does not show one
    decimal for every value below 10: 0.25 is shown with two decimals. *)
Lemma formatNiceNumber_two_decimals_counterexample :
  (to_Q 0.25%float < 10)%Q /\ formatNiceNumber 0.25%float = "0.25".
Proof. split; vm_compute; reflexivity. Qed.

(** Claim C8 (as amended): both formatters are functions of the value alone
    and give "" for a non-finite value.  For a finite value [x]
    [formatNiceNumber] shows, when [|x| >= 10], [Math.round(x)], which is
    the integer nearest to [x]: as [String] below 1000 and with
    [toLocaleString] from 1000 on.  While that integer is below [2^53] its
    digits are shown in full, grouped by thousands; from [2^53] on
    [toLocaleString] shows the double's shortest decimal
    ([toLocaleString_shortest_digits]).  When [1 <= |x| < 10] it shows at
    most one fraction digit ([toFixed(1)] without a trailing ".0"); when
    [|x| < 1], at most two fraction digits ([toFixed(2)] without trailing
    zeros). *)
Theorem formatNiceNumber_rules (x : float) :
  (is_finite x = false -> formatNiceNumber x = "" /\ formatExactValue x = "") /\
  (is_finite x = true -> (10 <= Qabs (to_Q x))%Q ->
     (Qabs (inject_Z (js_round x) - to_Q x) <= 1 # 2)%Q /\
     list_ascii_of_string (formatNiceNumber x) =
       (if Qle_bool 1000 (Qabs (to_Q x)) then locale_int (js_round x) else int_string (js_round x))) /\
  (is_finite x = true -> (1000 <= Qabs (to_Q x))%Q -> Z.abs (js_round x) < 2 ^ 53 ->
     list_ascii_of_string (formatNiceNumber x) =
       app (if js_round x <? 0 then ["-"%char] else []) (group (dec_list (Z.abs (js_round x))))) /\
  (is_finite x = true -> (1 <= Qabs (to_Q x) < 10)%Q -> at_most_decimals 1 (formatNiceNumber x)) /\
  (is_finite x = true -> (Qabs (to_Q x) < 1)%Q -> at_most_decimals 2 (formatNiceNumber x)).
Proof.
  split; [| split; [| split; [| split]]].
  - intros Hf. unfold formatNiceNumber, formatExactValue. rewrite Hf. split; reflexivity.
  - intros Hf Ha. split; [apply js_round_nearest |].
    unfold formatNiceNumber. rewrite Hf. simpl negb. cbv iota.
    rewrite list_ascii_of_string_of_list_ascii.
    destruct (Qle_bool 1000 (Qabs (to_Q x))); [reflexivity |].
    destruct (Qle_bool 100 (Qabs (to_Q x))); [reflexivity |].
    assert (E : Qle_bool 10 (Qabs (to_Q x)) = true) by (apply Qle_bool_iff; exact Ha).
    rewrite E. reflexivity.
  - intros Hf Ha Hb. unfold formatNiceNumber. rewrite Hf. simpl negb. cbv iota.
    rewrite list_ascii_of_string_of_list_ascii.
    assert (E : Qle_bool 1000 (Qabs (to_Q x)) = true) by (apply Qle_bool_iff; exact Ha).
    rewrite E. apply locale_int_small; [| exact Hb].
    intros H0. pose proof (js_round_nearest x) as Hn. rewrite H0 in Hn.
    change (inject_Z 0) with 0%Q in Hn. apply Qabs_Qle_condition in Hn.
    destruct (Qlt_le_dec (to_Q x) 0) as [Hs | Hs];
      [rewrite Qabs_neg in Ha by lra | rewrite Qabs_pos in Ha by lra]; lra.
  - intros Hf [Ha1 Ha2]. unfold at_most_decimals, formatNiceNumber. rewrite Hf. simpl negb. cbv iota.
    rewrite (Qle_bool_false 1000 (Qabs (to_Q x)) ltac:(lra)), (Qle_bool_false 100 (Qabs (to_Q x)) ltac:(lra)),
            (Qle_bool_false 10 _ Ha2).
    assert (E : Qle_bool 1 (Qabs (to_Q x)) = true) by (apply Qle_bool_iff; exact Ha1).
    rewrite E, list_ascii_of_string_of_list_ascii.
    destruct (toFixed_shape 1 x ltac:(discriminate)) as [sg [a [b [Hsg [Ha [Hne [Hb [Hl Ht]]]]]]]].
    destruct b as [| d [| d' b]]; try discriminate Hl.
    rewrite Ht, app_assoc, strip_dot0_shape.
    unfold all_digits in Hb. exists sg, a, [d]. repeat split; auto.
    + discriminate.
    + destruct (Ascii.eqb d "0"); [left; reflexivity | right; rewrite <- app_assoc; reflexivity].
  - intros Hf Ha. unfold at_most_decimals, formatNiceNumber. rewrite Hf. simpl negb. cbv iota.
    rewrite (Qle_bool_false 1000 (Qabs (to_Q x)) ltac:(lra)), (Qle_bool_false 100 (Qabs (to_Q x)) ltac:(lra)),
            (Qle_bool_false 10 (Qabs (to_Q x)) ltac:(lra)), (Qle_bool_false 1 _ Ha).
    rewrite list_ascii_of_string_of_list_ascii.
    destruct (toFixed_shape 2 x ltac:(discriminate)) as [sg [a [b [Hsg [Ha' [Hne [Hb [Hl Ht]]]]]]]].
    destruct b as [| d1 [| d2 [| d3 b]]]; try discriminate Hl.
    unfold all_digits in Hb. inversion Hb as [| ? ? Hd1 Hb']; subst. inversion Hb' as [| ? ? Hd2 _]; subst.
    rewrite Ht, app_assoc.
    destruct (strip_zeros_dot_shape (sg ++ a) d1 d2 Hd1 Hd2) as [E | [E | E]]; rewrite E.
    + exists sg, a, [d1]. repeat split; auto.
      * unfold all_digits. constructor; [exact Hd1 | constructor].
      * discriminate.
    + exists sg, a, [d1]. repeat split; auto.
      * unfold all_digits. constructor; [exact Hd1 | constructor].
      * discriminate.
      * right. rewrite <- app_assoc. reflexivity.
    + exists sg, a, [d1; d2]. repeat split; auto.
      * discriminate.
      * right. rewrite <- app_assoc. reflexivity.
Qed.

Lemma formatNiceNumber_rules_witness :
  at_most_decimals 2 (formatNiceNumber 0.25%float).
Proof.
  apply (proj2 (proj2 (proj2 (proj2 (formatNiceNumber_rules 0.25%float))))).
  - vm_compute. reflexivity.
  - vm_compute. reflexivity.
Defined.

(** ** The numeric input field ([NumberField])

    [sanitize] of [NumberField], on text as a list of ASCII characters
    ([\d] is [0-9]; every other character is removed alike). *)

Definition is_dot (c : ascii) : bool := Ascii.eqb c ".".

(** [/[^\d.]/g]: the characters that survive the first replace. *)
Definition num_char (c : ascii) : bool := is_digit c || is_dot c.

(** [String.prototype.indexOf] of a character, [None] for [-1]. *)
Fixpoint index_of (p : ascii -> bool) (l : list ascii) : option nat :=
  match l with
  | [] => None
  | c :: l' => if p c then Some O else option_map S (index_of p l')
  end.

(** [sanitize(raw)]: with [allowDecimal], keep digits and dots, then drop
    every dot after the first one; otherwise keep the digits only. *)
Definition sanitize (allowDecimal : bool) (raw : string) : string :=
  let l := list_ascii_of_string raw in
  if allowDecimal then
    let next := filter num_char l in
    match index_of is_dot next with
    | Some firstDot =>
        string_of_list_ascii
          (app (firstn (S firstDot) next) (filter (fun c => negb (is_dot c)) (skipn (S firstDot) next)))
    | None => string_of_list_ascii next
    end
  else string_of_list_ascii (filter is_digit l).

(** The characters after the first dot (none when there is no dot). *)
Fixpoint after_first_dot (l : list ascii) : list ascii :=
  match l with
  | [] => []
  | c :: l' => if is_dot c then l' else after_first_dot l'
  end.

(** The decimal value of the digits typed, read with the first dot as the
    decimal point: [digits / 10^(digits after the first dot)]. *)
Definition typed_value (raw : string) : Q :=
  let l := list_ascii_of_string raw in
  (inject_Z (digits_value (filter is_digit l)) /
   inject_Z (10 ^ Z.of_nat (List.length (filter is_digit (after_first_dot l)))))%Q.

Lemma digit_not_dot' (c : ascii) : is_digit c = true -> is_dot c = false.
Proof.
  intros H. unfold is_dot. destruct (Ascii.eqb_spec c ".") as [-> | _]; [discriminate | reflexivity].
Qed.

Lemma no_dot_num_char (l : list ascii) :
  forallb (fun c => negb (is_dot c)) l = true -> filter num_char l = filter is_digit l.
Proof.
  induction l as [| c l IH]; simpl; [reflexivity |].
  intros H. apply andb_true_iff in H as [Hc Hl].
  change (num_char c) with (is_digit c || is_dot c).
  apply negb_true_iff in Hc. rewrite Hc, orb_false_r.
  rewrite (IH Hl). reflexivity.
Qed.

Lemma filter_digit_no_dot (l : list ascii) :
  forallb (fun c => negb (is_dot c)) (filter is_digit l) = true.
Proof.
  induction l as [| c l IH]; simpl; [reflexivity |].
  destruct (is_digit c) eqn:Hd; [simpl; rewrite (digit_not_dot' c Hd); exact IH | exact IH].
Qed.

Lemma index_of_no_dot (a x : list ascii) :
  forallb (fun c => negb (is_dot c)) a = true ->
  index_of is_dot (app a ("."%char :: x)) = Some (List.length a).
Proof.
  induction a as [| c a IH]; simpl; [reflexivity |].
  intros H. apply andb_true_iff in H as [Hc Ha].
  apply negb_true_iff in Hc. rewrite Hc, (IH Ha). reflexivity.
Qed.

Lemma index_of_none (l : list ascii) :
  forallb (fun c => negb (is_dot c)) l = true -> index_of is_dot l = None.
Proof.
  induction l as [| c l IH]; simpl; [reflexivity |].
  intros H. apply andb_true_iff in H as [Hc Hl].
  apply negb_true_iff in Hc. rewrite Hc, (IH Hl). reflexivity.
Qed.

Lemma filter_num_not_dot (l : list ascii) :
  filter (fun c => negb (is_dot c)) (filter num_char l) = filter is_digit l.
Proof.
  induction l as [| c l IH]; [reflexivity |].
  cbn [filter]. change (num_char c) with (is_digit c || is_dot c). destruct (is_digit c) eqn:Hd.
  - cbn [orb filter]. rewrite (digit_not_dot' c Hd). cbn [negb]. rewrite IH. reflexivity.
  - cbn [orb]. destruct (is_dot c) eqn:Hdot; cbn [filter]; [rewrite Hdot; cbn [negb] |]; exact IH.
Qed.

(** Text splits at its first dot, or has none. *)
Lemma first_dot_split (l : list ascii) :
  (forallb (fun c => negb (is_dot c)) l = true) \/
  (exists pre post, l = app pre ("."%char :: post) /\ forallb (fun c => negb (is_dot c)) pre = true).
Proof.
  induction l as [| c l IH]; [left; reflexivity |].
  destruct (is_dot c) eqn:Hc.
  - right. exists [], l. unfold is_dot in Hc. apply Ascii.eqb_eq in Hc. subst c. split; reflexivity.
  - destruct IH as [H | [pre [post [-> H]]]].
    + left. simpl. rewrite Hc. exact H.
    + right. exists (c :: pre), post. split; [reflexivity |]. simpl. rewrite Hc. exact H.
Qed.


Lemma sanitize_split (raw : string) (pre post : list ascii) :
  list_ascii_of_string raw = app pre ("."%char :: post) ->
  forallb (fun c => negb (is_dot c)) pre = true ->
  sanitize true raw = string_of_list_ascii (app (filter is_digit pre) ("."%char :: filter is_digit post)).
Proof.
  intros Hl Hpre. unfold sanitize. rewrite Hl, filter_app, (no_dot_num_char pre Hpre).
  change (filter num_char ("."%char :: post)) with ("."%char :: filter num_char post).
  rewrite (index_of_no_dot _ _ (filter_digit_no_dot pre)).
  rewrite firstn_app, skipn_app, (firstn_all2 (filter is_digit pre)) by lia.
  replace (S (List.length (filter is_digit pre)) - List.length (filter is_digit pre))%nat with 1%nat by lia.
  rewrite (skipn_all2 (filter is_digit pre)) by lia.
  simpl. rewrite filter_num_not_dot, <- app_assoc. reflexivity.
Qed.

Lemma sanitize_no_dot (raw : string) :
  forallb (fun c => negb (is_dot c)) (list_ascii_of_string raw) = true ->
  sanitize true raw = string_of_list_ascii (filter is_digit (list_ascii_of_string raw)).
Proof.
  intros H. unfold sanitize. rewrite (no_dot_num_char _ H).
  rewrite (index_of_none _ (filter_digit_no_dot _)). reflexivity.
Qed.

Lemma filter_idem {A} (f : A -> bool) (l : list A) : filter f (filter f l) = filter f l.
Proof.
  induction l as [| x l IH]; [reflexivity |].
  simpl. destruct (f x) eqn:Hx; simpl; [rewrite Hx, IH | rewrite IH]; reflexivity.
Qed.

Lemma digits_no_dot_forallb (l : list ascii) :
  forallb (fun c => negb (is_dot c)) (filter is_digit l) = true.
Proof. apply filter_digit_no_dot. Qed.

Lemma after_first_dot_split (pre post : list ascii) :
  forallb (fun c => negb (is_dot c)) pre = true -> after_first_dot (app pre ("."%char :: post)) = post.
Proof.
  induction pre as [| c pre IH]; [reflexivity |].
  simpl. intros H. apply andb_true_iff in H as [Hc H]. apply negb_true_iff in Hc.
  rewrite Hc. exact (IH H).
Qed.

Lemma after_first_dot_none (l : list ascii) :
  forallb (fun c => negb (is_dot c)) l = true -> after_first_dot l = [].
Proof.
  induction l as [| c l IH]; [reflexivity |].
  simpl. intros H. apply andb_true_iff in H as [Hc H]. apply negb_true_iff in Hc.
  rewrite Hc. exact (IH H).
Qed.

(** The numeric field's sanitizer is idempotent: text it has already
    cleaned is left unchanged, with or without decimals allowed. *)
Theorem sanitize_idempotent (allowDecimal : bool) (raw : string) :
  sanitize allowDecimal (sanitize allowDecimal raw) = sanitize allowDecimal raw.
Proof.
  destruct allowDecimal.
  - destruct (first_dot_split (list_ascii_of_string raw)) as [H | [pre [post [Hl Hpre]]]].
    + rewrite (sanitize_no_dot raw H).
      rewrite sanitize_no_dot; rewrite list_ascii_of_string_of_list_ascii;
        [rewrite filter_idem; reflexivity | apply filter_digit_no_dot].
    + rewrite (sanitize_split raw pre post Hl Hpre).
      rewrite (sanitize_split _ (filter is_digit pre) (filter is_digit post)
                 (list_ascii_of_string_of_list_ascii _) (filter_digit_no_dot pre)).
      rewrite !filter_idem. reflexivity.
  - unfold sanitize. rewrite list_ascii_of_string_of_list_ascii, filter_idem. reflexivity.
Qed.

(** *** [parseFloat] of a sanitized text *)

Lemma digit_neq (c d : ascii) : is_digit c = true -> is_digit d = false -> Ascii.eqb c d = false.
Proof.
  intros Hc Hd. destruct (Ascii.eqb_spec c d) as [-> | _]; [congruence | reflexivity].
Qed.

Lemma digit_not_ws (c : ascii) : is_digit c = true -> is_ws c = false.
Proof.
  unfold is_digit, is_ws. intros H. apply andb_true_iff in H as [H1 H2].
  apply Nat.leb_le in H1. apply Nat.leb_le in H2.
  destruct (nat_of_ascii c) as [|[|[|[|[|[|[|[|[|[|[|[|[|[|n]]]]]]]]]]]]]]; try lia.
  do 19 (destruct n as [| n]; [lia |]). reflexivity.
Qed.

Lemma take_digits_app (ds r : list ascii) :
  forallb is_digit ds = true ->
  (match r with c :: _ => is_digit c = false | [] => True end) ->
  take_digits (app ds r) = (ds, r).
Proof.
  intros Hds Hr. induction ds as [| c ds IH].
  - destruct r as [| c r]; [reflexivity |]. simpl. rewrite Hr. reflexivity.
  - simpl in Hds. apply andb_true_iff in Hds as [Hc Hds].
    simpl. rewrite Hc, (IH Hds). reflexivity.
Qed.

Lemma forallb_filter_digit (l : list ascii) : forallb is_digit (filter is_digit l) = true.
Proof.
  induction l as [| c l IH]; [reflexivity |].
  simpl. destruct (is_digit c) eqn:Hc; [simpl; rewrite Hc; exact IH | exact IH].
Qed.

Lemma digits_value_nonneg (ds : list ascii) : 0 <= digits_value ds.
Proof.
  unfold digits_value.
  assert (H : forall acc, 0 <= acc ->
            0 <= fold_left (fun acc c => acc * 10 + Z.of_nat (nat_of_ascii c - 48)) ds acc).
  { induction ds as [| c ds IH]; intros acc Ha; [exact Ha |]. simpl. apply IH. lia. }
  apply H. lia.
Qed.

(** The cases of [round_double] for a non-negative decimal. *)
Definition round_nonneg_ok (v : JSNum) (q0 : Q) : Prop :=
  match v with
  | JFin q => (q == q0)%Q \/ ((q == 0)%Q /\ (q0 <= underflow_bound)%Q)
  | JPosInf => (overflow_bound <= q0)%Q
  | _ => False
  end.

Lemma round_double_nonneg (q0 : Q) : (0 <= q0)%Q -> round_nonneg_ok (round_double false q0) q0.
Proof.
  intros H. unfold round_double, round_nonneg_ok.
  destruct (Qle_bool overflow_bound q0) eqn:E1; [apply Qle_bool_iff; exact E1 |].
  destruct (Qle_bool q0 underflow_bound) eqn:E2.
  - right. split; [reflexivity | apply Qle_bool_iff; exact E2].
  - left. reflexivity.
Qed.

Lemma round_nonneg_ok_proper (v : JSNum) (q0 q1 : Q) :
  (q0 == q1)%Q -> round_nonneg_ok v q0 -> round_nonneg_ok v q1.
Proof.
  intros E. destruct v; simpl; [| rewrite E; auto | auto | auto].
  intros [H | [H1 H2]]; [left; rewrite H; exact E | right; split; [exact H1 | rewrite <- E; exact H2]].
Qed.

Lemma parseFloat_unsigned (s : list ascii) :
  match s with c :: _ => is_digit c = true \/ c = "."%char | [] => True end ->
  parseFloat (string_of_list_ascii s) =
    let '(ds, r1) := take_digits s in
    let '(fs, r2) := match r1 with
                     | c :: t => if Ascii.eqb c "." then take_digits t else ([], r1)
                     | [] => ([], r1)
                     end in
    match app ds fs with
    | [] => JNaN
    | mant =>
        let e := exponent_part r2 - Z.of_nat (List.length fs) in
        let m := digits_value mant in
        let q := if e <? 0 then (m # Z.to_pos (10 ^ (- e)))%Q else inject_Z (m * 10 ^ e) in
        round_double false q
    end.
Proof.
  intros H. unfold parseFloat. rewrite list_ascii_of_string_of_list_ascii.
  destruct s as [| c s]; [reflexivity |].
  destruct H as [H | ->]; [| reflexivity].
  cbn [skip_ws]. rewrite (digit_not_ws c H).
  rewrite (digit_neq c "-" H eq_refl), (digit_neq c "+" H eq_refl).
  replace (starts_with infinity_chars (c :: s)) with false; [reflexivity |].
  unfold infinity_chars. cbn [list_ascii_of_string starts_with].
  rewrite Ascii.eqb_sym, (digit_neq c "I" H eq_refl). reflexivity.
Qed.

Lemma round_double_not_nan (q : Q) : round_double false q <> JNaN.
Proof. unfold round_double. destruct (Qle_bool _ _); [| destruct (Qle_bool _ _)]; discriminate. Qed.

Lemma decimal_Qeq (m : Z) (k : nat) :
  ((if - Z.of_nat k <? 0 then (m # Z.to_pos (10 ^ (- - Z.of_nat k)))%Q
    else inject_Z (m * 10 ^ (- Z.of_nat k))) == inject_Z m / inject_Z (10 ^ Z.of_nat k))%Q.
Proof.
  destruct (- Z.of_nat k <? 0) eqn:E.
  - rewrite Z.opp_involutive, Qmake_Qdiv.
    rewrite Z2Pos.id; [reflexivity | apply Z.pow_pos_nonneg; lia].
  - apply Z.ltb_ge in E. assert (k = O) by lia. subst k. simpl.
    rewrite Z.mul_1_r. unfold Qdiv. change (/ inject_Z 1)%Q with 1%Q. rewrite Qmult_1_r. reflexivity.
Qed.

Lemma parseFloat_digits_dot (ds fs : list ascii) (dot : bool) :
  forallb is_digit ds = true -> forallb is_digit fs = true -> (dot = false -> fs = []) ->
  (parseFloat (string_of_list_ascii (app ds (if dot then "."%char :: fs else []))) = JNaN <-> app ds fs = []) /\
  (app ds fs <> [] ->
   round_nonneg_ok (parseFloat (string_of_list_ascii (app ds (if dot then "."%char :: fs else []))))
     (inject_Z (digits_value (app ds fs)) / inject_Z (10 ^ Z.of_nat (List.length fs)))%Q).
Proof.
  intros Hds Hfs Hdot.
  rewrite parseFloat_unsigned.
  2: { destruct ds as [| c ds]; [destruct dot; simpl; auto | simpl in Hds; apply andb_true_iff in Hds; left; apply Hds]. }
  assert (Htd : take_digits (app ds (if dot then "."%char :: fs else [])) =
                (ds, if dot then "."%char :: fs else [])).
  { apply take_digits_app; [exact Hds | destruct dot; [reflexivity | exact I]]. }
  rewrite Htd.
  assert (Hr : (match (if dot then "."%char :: fs else []) with
                | c :: t => if Ascii.eqb c "." then take_digits t else ([], if dot then "."%char :: fs else [])
                | [] => ([], if dot then "."%char :: fs else [])
                end) = (fs, [])).
  { destruct dot.
    - simpl Ascii.eqb. cbv iota. rewrite <- (app_nil_r fs) at 1. rewrite take_digits_app; [reflexivity | exact Hfs | exact I].
    - rewrite (Hdot eq_refl). reflexivity. }
  rewrite Hr. cbn [exponent_part]. rewrite Z.sub_0_l.
  destruct (app ds fs) as [| c mant] eqn:E.
  - split; [split; reflexivity | intros []; reflexivity].
  - split; [split; [intros Hn; exfalso; apply (round_double_not_nan _ Hn) | discriminate] |].
    intros _. rewrite <- E.
    apply (round_nonneg_ok_proper _ _ _ (decimal_Qeq (digits_value (app ds fs)) (List.length fs))).
    apply round_double_nonneg.
    destruct (- Z.of_nat (List.length fs) <? 0).
    + unfold Qle. simpl. pose proof (digits_value_nonneg (app ds fs)). lia.
    + apply (Qle_trans _ (inject_Z 0)); [apply Qle_refl |]. rewrite <- Zle_Qle.
      apply Z.mul_nonneg_nonneg; [apply digits_value_nonneg | apply Z.pow_nonneg; lia].
Qed.

(** After the decimal sanitizer, [parseFloat] gives [NaN] exactly when the
    typed text has no digit; otherwise it gives the typed digits read as a
    decimal with the point at the first dot, up to the double's rounding
    (never negative, [0] on underflow, [Infinity] on overflow). *)
Theorem sanitize_parseFloat (raw : string) :
  (parseFloat (sanitize true raw) = JNaN <-> filter is_digit (list_ascii_of_string raw) = []) /\
  (filter is_digit (list_ascii_of_string raw) <> [] ->
   round_nonneg_ok (parseFloat (sanitize true raw)) (typed_value raw)).
Proof.
  unfold typed_value.
  destruct (first_dot_split (list_ascii_of_string raw)) as [H | [pre [post [Hl Hpre]]]].
  - rewrite (sanitize_no_dot raw H), (after_first_dot_none _ H).
    pose proof (parseFloat_digits_dot (filter is_digit (list_ascii_of_string raw)) [] false
                  (forallb_filter_digit _) eq_refl (fun _ => eq_refl)) as Hp.
    cbv beta iota in Hp. rewrite !app_nil_r in Hp. exact Hp.
  - rewrite (sanitize_split raw pre post Hl Hpre), Hl, (after_first_dot_split _ _ Hpre), filter_app.
    change (filter is_digit ("."%char :: post)) with (filter is_digit post).
    exact (parseFloat_digits_dot (filter is_digit pre) (filter is_digit post) true
             (forallb_filter_digit _) (forallb_filter_digit _) (fun H => ltac:(discriminate H))).
Qed.

Lemma sanitize_parseFloat_witness :
  round_nonneg_ok (parseFloat (sanitize true "1a2.5.0")) (typed_value "1a2.5.0").
Proof.
  apply (proj2 (sanitize_parseFloat "1a2.5.0")). vm_compute. discriminate.
Defined.

(** The decimal sanitizer keeps the digits and only the first dot: text
    with no dot becomes its digits, and text [pre ++ "." :: post] with no
    dot in [pre] becomes the digits of [pre], a dot, the digits of [post]. *)
Theorem sanitize_keeps_digits_and_first_dot (raw : string) (pre post : list ascii) :
  (forallb (fun c => negb (is_dot c)) (list_ascii_of_string raw) = true ->
   sanitize true raw = string_of_list_ascii (filter is_digit (list_ascii_of_string raw))) /\
  (list_ascii_of_string raw = app pre ("."%char :: post) ->
   forallb (fun c => negb (is_dot c)) pre = true ->
   sanitize true raw = string_of_list_ascii (app (filter is_digit pre) ("."%char :: filter is_digit post))).
Proof. split; [apply sanitize_no_dot | apply sanitize_split]. Qed.

Lemma sanitize_keeps_digits_and_first_dot_witness : sanitize true "a1.2.3" = "1.23".
Proof.
  rewrite (proj2 (sanitize_keeps_digits_and_first_dot "a1.2.3" ["a"%char; "1"%char] ["2"%char; "."%char; "3"%char])
             eq_refl eq_refl).
  reflexivity.
Defined.

(** ** The current cycle: [getCurrentCycleIndex] and its callers *)

(** The loop of [getCurrentCycleIndex] from index [i] on. *)
Fixpoint cycle_index_from (cycles : list Cycle) (tz d i : Z) : Z :=
  match cycles with
  | [] => -1
  | c :: cs => if in_cycle tz c d then i else cycle_index_from cs tz d (i + 1)
  end.

(** [getCurrentCycleIndex(date)], over a configured cycle list. *)
Definition getCurrentCycleIndex_in (cycles : list Cycle) (tz d : Z) : Z :=
  cycle_index_from cycles tz d 0.

Definition getCurrentCycleIndex (tz d : Z) : Z := getCurrentCycleIndex_in CYCLES tz d.

(** [arr[i]] for an integer index: [undefined] ([None]) out of range. *)
Definition js_at {A} (l : list A) (i : Z) : option A :=
  if i <? 0 then None else nth_error l (Z.to_nat i).

Definition WEEKDAY_ORDER : list string :=
  ["Monday"; "Tuesday"; "Wednesday"; "Thursday"; "Friday"; "Saturday"; "Sunday"].

(** [.filter(Boolean)] on a list of optional objects. *)
Fixpoint somes {A} (l : list (option A)) : list A :=
  match l with
  | [] => []
  | Some x :: l' => x :: somes l'
  | None :: l' => somes l'
  end.

(** [leaderboardOptions]: the movements of the current cycle (the last
    cycle when today is in none), Monday to Sunday, as [{ name, unit }]. *)
Definition leaderboardOptions_in (cycles : list Cycle) (tz now : Z) : list (string * string) :=
  let idx := getCurrentCycleIndex_in cycles tz now in
  let currentCycle := if idx >=? 0 then js_at cycles idx
                      else js_at cycles (Z.of_nat (List.length cycles) - 1) in
  match currentCycle with
  | None => []
  | Some c => map (fun m => (name m, unit m)) (somes (map (lookup (weekTemplate c)) WEEKDAY_ORDER))
  end.

Definition leaderboardOptions (tz now : Z) : list (string * string) := leaderboardOptions_in CYCLES tz now.

(** The effect that sets the leaderboard's movement:
    [setLbMovementName(prev => prev || todayName)], where [todayName] is
    today's movement unless it is TBD, else the first option's name. *)
Definition lbMovementName_next (prev : string) (tz now : Z) : string :=
  let todaysMovement := movementForDate tz now in
  let options := leaderboardOptions tz now in
  let todayName := if negb (String.eqb (name todaysMovement) "TBD") then name todaysMovement
                   else match options with o :: _ => fst o | [] => "" end in
  if String.eqb prev "" then todayName else prev.

(** [DatabaseSection]'s current and previous cycles. *)
Definition db_cycles_in (cycles : list Cycle) (tz now : Z) : option Cycle * option Cycle :=
  let idx := getCurrentCycleIndex_in cycles tz now in
  let curr := if idx >=? 0 then js_at cycles idx else None in
  let prev := if idx >? 0 then js_at cycles (idx - 1) else None in
  match curr, cycles with
  | None, _ :: _ =>
      (js_at cycles (Z.of_nat (List.length cycles) - 1),
       if (1 <? List.length cycles)%nat then js_at cycles (Z.of_nat (List.length cycles) - 2) else None)
  | _, _ => (curr, prev)
  end.

Lemma cycle_index_from_spec (cycles : list Cycle) (tz d i : Z) :
  match getCycleForDate_in cycles tz d with
  | None => cycle_index_from cycles tz d i = -1
  | Some c => exists k, cycle_index_from cycles tz d i = i + Z.of_nat k /\ nth_error cycles k = Some c /\
               forall j c', (j < k)%nat -> nth_error cycles j = Some c' -> in_cycle tz c' d = false
  end.
Proof.
  revert i. induction cycles as [| c cs IH]; intros i; simpl; [reflexivity |].
  destruct (in_cycle tz c d) eqn:Hc.
  - exists O. split; [lia |]. split; [reflexivity |]. intros j c' Hj. lia.
  - specialize (IH (i + 1)). destruct (getCycleForDate_in cs tz d) as [c0 |]; [| exact IH].
    destruct IH as [k [Hk [Hn Hb]]]. exists (S k). split; [lia |]. split; [exact Hn |].
    intros [| j] c' Hj Hj'; [injection Hj' as <-; exact Hc |].
    apply (Hb j c'); [lia | exact Hj'].
Qed.

(** [getCurrentCycleIndex] agrees with [getCycleForDate]: [-1] when no
    cycle holds the day, otherwise a valid index of the very cycle found. *)
Theorem getCurrentCycleIndex_agrees (cycles : list Cycle) (tz d : Z) :
  match getCycleForDate_in cycles tz d with
  | None => getCurrentCycleIndex_in cycles tz d = -1
  | Some c => 0 <= getCurrentCycleIndex_in cycles tz d /\
              js_at cycles (getCurrentCycleIndex_in cycles tz d) = Some c
  end.
Proof.
  pose proof (cycle_index_from_spec cycles tz d 0) as H. unfold getCurrentCycleIndex_in.
  destruct (getCycleForDate_in cycles tz d) as [c |]; [| exact H].
  destruct H as [k [Hk [Hn _]]]. rewrite Hk. split; [lia |].
  unfold js_at. replace (0 + Z.of_nat k <? 0) with false by (symmetry; apply Z.ltb_ge; lia).
  rewrite Z.add_0_l, Nat2Z.id. exact Hn.
Qed.

Lemma getCycleForDate_in_In (cycles : list Cycle) (tz d : Z) (c : Cycle) :
  getCycleForDate_in cycles tz d = Some c -> In c cycles.
Proof.
  induction cycles as [| c0 cs IH]; simpl; [discriminate |].
  destruct (in_cycle tz c0 d); [intros [= ->]; left; reflexivity | intros H; right; exact (IH H)].
Qed.

Lemma CYCLES_names_not_TBD (c : Cycle) (k : string) (m : Movement) :
  In c CYCLES -> lookup (weekTemplate c) k = Some m -> name m <> "TBD".
Proof.
  intros Hc. simpl in Hc.
  repeat (destruct Hc as [Hc | Hc]; [subst c | ]); try contradiction;
  simpl; repeat (destruct (String.eqb k _); [intros [= <-]; discriminate |]); discriminate.
Qed.

Lemma weekday_names_order (k : string) : In k weekday_names -> In k WEEKDAY_ORDER.
Proof. simpl. tauto. Qed.

Lemma lookup_somes (t : Template) (ks : list string) (k : string) (m : Movement) :
  In k ks -> lookup t k = Some m -> In m (somes (map (lookup t) ks)).
Proof.
  induction ks as [| k0 ks IH]; [intros [] |].
  intros [-> | Hk] Hm; simpl.
  - rewrite Hm. left. reflexivity.
  - destruct (lookup t k0); [right |]; exact (IH Hk Hm).
Qed.

(** With no movement chosen yet, the leaderboard picks the day's movement
    name, and that name is always one of the leaderboard's options. *)
Theorem lbMovementName_default_in_options (tz now : Z) :
  In (lbMovementName_next "" tz now) (map fst (leaderboardOptions tz now)).
Proof.
  pose proof (getCurrentCycleIndex_agrees CYCLES tz now) as H.
  unfold lbMovementName_next, leaderboardOptions, leaderboardOptions_in, movementForDate, movementForDate_in.
  destruct (getCycleForDate_in CYCLES tz now) as [c |] eqn:E.
  - destruct H as [Hi Hc]. rewrite Hc.
    replace (getCurrentCycleIndex_in CYCLES tz now >=? 0) with true by (symmetry; apply Z.geb_le; lia).
    pose proof (getCycleForDate_in_In _ _ _ _ E) as Hin.
    destruct (CYCLES_templates_complete c (dayName tz now) Hin (dayName_weekday tz now)) as [m Hm].
    rewrite Hm.
    replace (negb (String.eqb (name m) "TBD")) with true
      by (symmetry; apply negb_true_iff, String.eqb_neq, (CYCLES_names_not_TBD c _ m Hin Hm)).
    rewrite map_map. simpl String.eqb. cbv iota.
    apply (in_map (fun x => fst (name x, unit x))).
    apply (lookup_somes _ _ _ _ (weekday_names_order _ (dayName_weekday tz now)) Hm).
  - rewrite H. vm_compute. left. reflexivity.
Qed.

(** The database views' current and previous cycle: the cycle holding
    today and the one listed before it; when no cycle holds today, the last
    cycle and the one before it (none for a single cycle). *)
Theorem db_cycles_choice (cycles : list Cycle) (tz now : Z) :
  match getCycleForDate_in cycles tz now with
  | Some c => exists k, nth_error cycles k = Some c /\
      db_cycles_in cycles tz now = (Some c, match k with O => None | S j => nth_error cycles j end)
  | None => (forall c, cycles = [c] -> db_cycles_in cycles tz now = (Some c, None)) /\
            (forall pre p c, cycles = app pre [p; c] -> db_cycles_in cycles tz now = (Some c, Some p))
  end.
Proof.
  pose proof (cycle_index_from_spec cycles tz now 0) as H.
  unfold db_cycles_in, getCurrentCycleIndex_in.
  destruct (getCycleForDate_in cycles tz now) as [c |].
  - destruct H as [k [Hk [Hn _]]]. exists k. split; [exact Hn |]. rewrite Hk, Z.add_0_l.
    replace (Z.of_nat k >=? 0) with true by (symmetry; apply Z.geb_le; lia).
    assert (Hcur : js_at cycles (Z.of_nat k) = Some c).
    { unfold js_at. replace (Z.of_nat k <? 0) with false by (symmetry; apply Z.ltb_ge; lia).
      rewrite Nat2Z.id. exact Hn. }
    rewrite Hcur.
    destruct k as [| j].
    + reflexivity.
    + replace (Z.of_nat (S j) >? 0) with true by (symmetry; apply Z.gtb_lt; lia).
      unfold js_at. replace (Z.of_nat (S j) - 1 <? 0) with false by (symmetry; apply Z.ltb_ge; lia).
      replace (Z.to_nat (Z.of_nat (S j) - 1)) with j by lia.
      reflexivity.
  - rewrite H. simpl. split.
    + intros c ->. reflexivity.
    + intros pre p c ->. rewrite length_app. simpl List.length.
      unfold js_at.
      replace (Z.of_nat (List.length pre + 2) - 1 <? 0) with false by (symmetry; apply Z.ltb_ge; lia).
      replace (Z.of_nat (List.length pre + 2) - 2 <? 0) with false by (symmetry; apply Z.ltb_ge; lia).
      replace (Z.to_nat (Z.of_nat (List.length pre + 2) - 1)) with (List.length pre + 1)%nat by lia.
      replace (Z.to_nat (Z.of_nat (List.length pre + 2) - 2)) with (List.length pre + 0)%nat by lia.
      replace (1 <? List.length pre + 2)%nat with true by (symmetry; apply Nat.ltb_lt; lia).
      rewrite !nth_error_app2 by lia. rewrite !Nat.add_sub_swap, Nat.sub_diag by lia.
      destruct pre; reflexivity.
Qed.

(** ** ISO date strings read back as local dates ([isWithinISO]) *)

(** [digit] of a character, the [\d] of a date string. *)
Definition digit_val (c : ascii) : option Z :=
  if is_digit c then Some (Z.of_nat (nat_of_ascii c) - 48) else None.

Definition two_digits (a b : ascii) : option Z :=
  match digit_val a, digit_val b with
  | Some x, Some y => Some (x * 10 + y)
  | _, _ => None
  end.

Definition four_digits (a b c d : ascii) : option Z :=
  match two_digits a b, two_digits c d with
  | Some x, Some y => Some (x * 100 + y)
  | _, _ => None
  end.

(** [new Date(s)] for a date-time string [YYYY-MM-DDTHH:mm:ss] with no
    offset, which ECMAScript reads as local time; [None] is an Invalid Date.
    The day field runs 01..31 and, as V8 does, a day past the month's end
    runs into the next month.  Other shapes (never produced by the app,
    which only passes ISO dates from the [date] column) are Invalid Date. *)
Definition parse_date_time (tz : Z) (s : string) : option Z :=
  match list_ascii_of_string s with
  | [y1; y2; y3; y4; s1; m1; m2; s2; d1; d2; t; h1; h2; c1; i1; i2; c2; e1; e2] =>
      if Ascii.eqb s1 "-" && Ascii.eqb s2 "-" && Ascii.eqb t "T" && Ascii.eqb c1 ":" && Ascii.eqb c2 ":" then
        match four_digits y1 y2 y3 y4, two_digits m1 m2, two_digits d1 d2,
              two_digits h1 h2, two_digits i1 i2, two_digits e1 e2 with
        | Some y, Some m, Some d, Some h, Some mi, Some se =>
            if (1 <=? m) && (m <=? 12) && (1 <=? d) && (d <=? 31) &&
               ((h <? 24) && (mi <? 60) && (se <? 60) || (h =? 24) && (mi =? 0) && (se =? 0))
            then Some (local_date tz y m d + ((h * 60 + mi) * 60 + se) * 1000)
            else None
        | _, _, _, _, _, _ => None
        end
      else None
  | _ => None
  end.

(** [isWithinISO(dateISO, start, end)]: a comparison with an Invalid Date is false. *)
Definition isWithinISO (tz : Z) (dateISO : string) (start_ end_ : Z) : bool :=
  match parse_date_time tz (dateISO ++ "T00:00:00") with
  | Some d => (start_ <=? d) && (d <=? end_)
  | None => false
  end.

(** The character [dec_string] writes for a digit. *)
Definition dch (k : Z) : ascii := ascii_of_nat (48 + Z.to_nat k).

Lemma digit_val_dch (k : Z) : 0 <= k <= 9 -> digit_val (dch k) = Some k.
Proof.
  intros Hk. unfold digit_val, dch, is_digit.
  rewrite nat_ascii_embedding by lia.
  replace ((48 <=? 48 + Z.to_nat k)%nat && (48 + Z.to_nat k <=? 57)%nat) with true
    by (symmetry; apply andb_true_iff; split; apply Nat.leb_le; lia).
  f_equal. lia.
Qed.

Lemma dec_aux_ge10 (f : nat) (n : Z) (acc : string) :
  10 <= n -> dec_aux (S f) n acc = dec_aux f (n / 10) (String (dch (n mod 10)) acc).
Proof. intros H. simpl. replace (n <? 10) with false by (symmetry; apply Z.ltb_ge; lia). reflexivity. Qed.

Lemma dec_aux_lt10 (f : nat) (n : Z) (acc : string) :
  n < 10 -> dec_aux (S f) n acc = String (dch (n mod 10)) acc.
Proof. intros H. simpl. replace (n <? 10) with true by (symmetry; apply Z.ltb_lt; lia). reflexivity. Qed.

Lemma dec_string_4 (y : Z) : 1000 <= y <= 9999 ->
  dec_string y = String (dch ((y / 1000) mod 10)) (String (dch ((y / 100) mod 10))
                   (String (dch ((y / 10) mod 10)) (String (dch (y mod 10)) ""))).
Proof.
  intros Hy. unfold dec_string.
  assert (Hl : 9 <= Z.log2 (Z.max y 1)).
  { rewrite Z.max_l by lia. apply (Z.log2_le_mono 512 y). lia. }
  destruct (Z.to_nat (Z.log2 (Z.max y 1))) as [| [| [| f]]] eqn:E; try lia.
  rewrite dec_aux_ge10 by lia. rewrite dec_aux_ge10 by (Z.div_mod_to_equations; lia).
  rewrite dec_aux_ge10 by (Z.div_mod_to_equations; lia).
  rewrite dec_aux_lt10 by (Z.div_mod_to_equations; lia).
  rewrite !Z.div_div by lia. reflexivity.
Qed.

Lemma pad2_2 (k : Z) : 1 <= k <= 99 -> pad2 k = String (dch (k / 10)) (String (dch (k mod 10)) "").
Proof.
  intros Hk. unfold pad2. destruct (k <? 10) eqn:E.
  - apply Z.ltb_lt in E. unfold dec_string.
    destruct (Z.to_nat (Z.log2 (Z.max k 1))) eqn:F;
      rewrite dec_aux_lt10 by lia; rewrite Z.div_small, Z.mod_small by lia; reflexivity.
  - apply Z.ltb_ge in E. unfold dec_string.
    assert (Hl : 3 <= Z.log2 (Z.max k 1)).
    { rewrite Z.max_l by lia. apply (Z.log2_le_mono 8 k). lia. }
    destruct (Z.to_nat (Z.log2 (Z.max k 1))) as [| f] eqn:F; try lia.
    rewrite dec_aux_ge10 by lia.
    destruct f as [| f]; [lia |].
    rewrite dec_aux_lt10 by (Z.div_mod_to_equations; lia).
    rewrite (Z.mod_small (k / 10)) by (Z.div_mod_to_equations; lia). reflexivity.
Qed.
Lemma civil_bounds (n : Z) :
  let z := n + 719468 in
  let era := z / 146097 in
  let doe := z - era * 146097 in
  let yoe := (doe - doe / 1460 + doe / 36524 - doe / 146096) / 365 in
  let doy := doe - (365 * yoe + yoe / 4 - yoe / 100) in
  0 <= doe < 146097 /\ 0 <= yoe < 400 /\ 0 <= doy < 366.
Proof.
  intros z era doe yoe doy.
  assert (Hdoe : 0 <= doe < 146097) by (subst doe era; Z.div_mod_to_equations; lia).
  clearbody doe. subst yoe doy.
  Z.div_mod_to_equations. lia.
Qed.
Lemma days_from_civil_from_days (n : Z) :
  let '(y, m, d) := civil_from_days n in
  days_from_civil y m d = n /\ 1 <= m <= 12 /\ 1 <= d <= 31.
Proof.
  pose proof (civil_bounds n) as Hb. cbv zeta in Hb.
  unfold civil_from_days, days_from_civil.
  set (z := n + 719468) in *.
  set (era := z / 146097) in *.
  set (doe := z - era * 146097) in *.
  set (yoe := (doe - doe / 1460 + doe / 36524 - doe / 146096) / 365) in *.
  set (doy := doe - (365 * yoe + yoe / 4 - yoe / 100)) in *.
  destruct Hb as [Hdoe [Hyoe Hdoy]].
  assert (Hmp : 0 <= (5 * doy + 2) / 153 < 12) by (Z.div_mod_to_equations; lia).
  set (mp := (5 * doy + 2) / 153) in *.
  assert (Hd : 1 <= doy - (153 * mp + 2) / 5 + 1 <= 31) by (subst mp; Z.div_mod_to_equations; lia).
  destruct (mp <? 10) eqn:E1.
  - apply Z.ltb_lt in E1.
    assert (E2 : (mp + 3 <=? 2) = false) by (apply Z.leb_gt; lia).
    assert (E3 : (mp + 3 >? 2) = true) by (apply Z.gtb_lt; lia).
    rewrite E2, E3. replace (mp + 3 - 3) with mp by lia.
    assert (E4 : (yoe + era * 400) / 400 = era) by (Z.div_mod_to_equations; lia).
    rewrite E4. split; [| lia].
    unfold doy, doe, z. replace (yoe + era * 400 - era * 400) with yoe by lia. lia.
  - apply Z.ltb_ge in E1.
    assert (E2 : (mp - 9 <=? 2) = true) by (apply Z.leb_le; lia).
    assert (E3 : (mp - 9 >? 2) = false) by (rewrite Z.gtb_ltb; apply Z.ltb_ge; lia).
    rewrite E2, E3. replace (mp - 9 + 9) with mp by lia.
    replace (yoe + era * 400 + 1 - 1) with (yoe + era * 400) by lia.
    assert (E4 : (yoe + era * 400) / 400 = era) by (Z.div_mod_to_equations; lia).
    rewrite E4. split; [| lia].
    unfold doy, doe, z. replace (yoe + era * 400 - era * 400) with yoe by lia. lia.
Qed.

Lemma two_digits_dch (k : Z) : 0 <= k <= 99 -> two_digits (dch (k / 10)) (dch (k mod 10)) = Some k.
Proof.
  intros Hk. unfold two_digits.
  rewrite !digit_val_dch by (Z.div_mod_to_equations; lia). f_equal. Z.div_mod_to_equations. lia.
Qed.

Lemma four_digits_dch (y : Z) : 0 <= y <= 9999 ->
  four_digits (dch ((y / 1000) mod 10)) (dch ((y / 100) mod 10)) (dch ((y / 10) mod 10)) (dch (y mod 10)) = Some y.
Proof.
  intros Hy. unfold four_digits, two_digits.
  rewrite !digit_val_dch by (Z.div_mod_to_equations; lia). f_equal. Z.div_mod_to_equations. lia.
Qed.

(** The local midnight [isoLocal] names is the one [new Date(iso + 'T00:00:00')] reads. *)
Lemma parse_isoLocal (tz d : Z) :
  1000 <= fst (fst (civil_from_days (local_day tz d))) <= 9999 ->
  parse_date_time tz (isoLocal tz d ++ "T00:00:00") = Some (startOfDay tz d).
Proof.
  intros Hy. unfold isoLocal.
  pose proof (days_from_civil_from_days (local_day tz d)) as Hc.
  destruct (civil_from_days (local_day tz d)) as [[y m] dd] eqn:C. simpl in Hy.
  destruct Hc as [Hdays [Hm Hd]].
  rewrite (dec_string_4 y Hy), (pad2_2 m ltac:(lia)), (pad2_2 dd ltac:(lia)).
  unfold parse_date_time. cbn -[dch digit_val two_digits four_digits].
  rewrite four_digits_dch, two_digits_dch, two_digits_dch by lia.
  change (two_digits "0" "0") with (Some 0).
  replace ((1 <=? m) && (m <=? 12) && (1 <=? dd) && (dd <=? 31)) with true
    by (symmetry; rewrite !andb_true_iff, !Z.leb_le; lia).
  cbn -[local_date]. unfold local_date, startOfDay. rewrite Hdays, Z.add_0_r. reflexivity.
Qed.

(** For a date written by [isoLocal] (a four-digit year), [isWithinISO]
    compares its local midnight with the bounds; with a cycle's bounds it
    agrees with the cycle-membership test [in_cycle]. *)
Theorem isWithinISO_isoLocal (tz d s e : Z) :
  1000 <= fst (fst (civil_from_days (local_day tz d))) <= 9999 ->
  isWithinISO tz (isoLocal tz d) s e = (s <=? startOfDay tz d) && (startOfDay tz d <=? e) /\
  (forall c, isWithinISO tz (isoLocal tz d) (fst (getCycleBounds tz c)) (snd (getCycleBounds tz c)) =
             in_cycle tz c d).
Proof.
  intros Hy. unfold isWithinISO. rewrite (parse_isoLocal tz d Hy). split; [reflexivity |].
  intros c. unfold in_cycle. destruct (getCycleBounds tz c) as [s' e']. reflexivity.
Qed.

Lemma isWithinISO_isoLocal_witness :
  isWithinISO (-18000000) (isoLocal (-18000000) (local_date (-18000000) 2026 1 11))
    (fst (getCycleBounds (-18000000) (nth 4 CYCLES (nth 0 CYCLES (mkCycle 0 None None [])))))
    (snd (getCycleBounds (-18000000) (nth 4 CYCLES (nth 0 CYCLES (mkCycle 0 None None []))))) = true.
Proof.
  rewrite (proj2 (isWithinISO_isoLocal (-18000000) (local_date (-18000000) 2026 1 11) 0 0
                    ltac:(vm_compute; split; discriminate))).
  vm_compute. reflexivity.
Defined.

(** ** Date order, chart rows and the input prefill *)

(** [a < b] on strings (UTF-16 code units; here ASCII). *)
Definition str_lt (a b : string) : bool :=
  match String.compare a b with Lt => true | _ => false end.

Definition str_le (a b : string) : Prop := String.compare a b <> Gt.

(** [a.date.localeCompare(b.date) < 0].  The dates are ISO strings
    [YYYY-MM-DD] of the [date] column; on strings of digits and dashes of
    one shape the locale collation orders as the code units do. *)
Definition date_before (a b : string) : bool := str_lt a b.

(** [Array.prototype.sort] with a comparator on a string key: stable, so
    the order of insertion sort (an element goes after the ones not greater). *)
Fixpoint insert_key {A} (k : A -> string) (x : A) (l : list A) : list A :=
  match l with
  | [] => [x]
  | y :: l' => if date_before (k x) (k y) then x :: y :: l' else y :: insert_key k x l'
  end.

Definition sort_key {A} (k : A -> string) (l : list A) : list A :=
  fold_left (fun acc x => insert_key k x acc) l [].

Lemma N_compare_trans_le (x y z : N) :
  N.compare x y <> Gt -> N.compare y z <> Gt -> N.compare x z <> Gt.
Proof. rewrite !N.compare_le_iff. lia. Qed.

Lemma str_le_trans (a b c : string) : str_le a b -> str_le b c -> str_le a c.
Proof.
  unfold str_le. revert b c.
  induction a as [| x a IH]; intros [| y b] [| z c] H1 H2; simpl in *; try congruence.
  unfold Ascii.compare in *.
  destruct (N.compare_spec (N_of_ascii x) (N_of_ascii y)) as [E1 | E1 | E1];
  destruct (N.compare_spec (N_of_ascii y) (N_of_ascii z)) as [E2 | E2 | E2]; try congruence.
  - rewrite E1, E2, N.compare_refl. exact (IH b c H1 H2).
  - replace (N.compare (N_of_ascii x) (N_of_ascii z)) with Lt by (symmetry; apply N.compare_lt_iff; lia).
    discriminate.
  - replace (N.compare (N_of_ascii x) (N_of_ascii z)) with Lt by (symmetry; apply N.compare_lt_iff; lia).
    discriminate.
  - replace (N.compare (N_of_ascii x) (N_of_ascii z)) with Lt by (symmetry; apply N.compare_lt_iff; lia).
    discriminate.
Qed.

Lemma str_lt_false_le (a b : string) : str_lt a b = false -> str_le b a.
Proof.
  unfold str_lt, str_le. rewrite (String.compare_antisym b a).
  destruct (String.compare a b); simpl; congruence.
Qed.

Lemma str_lt_le (a b : string) : str_lt a b = true -> str_le a b.
Proof. unfold str_lt, str_le. destruct (String.compare a b); congruence. Qed.

Lemma str_le_refl (a : string) : str_le a a.
Proof.
  unfold str_le. induction a as [| x a IH]; simpl; [discriminate |].
  unfold Ascii.compare. rewrite N.compare_refl. exact IH.
Qed.

Lemma insert_key_sorted {A} (k : A -> string) (x : A) (l : list A) :
  Sorted (fun a b => str_le (k a) (k b)) l -> Sorted (fun a b => str_le (k a) (k b)) (insert_key k x l).
Proof.
  induction l as [| y l IH]; intros Hs; simpl; [repeat constructor |].
  destruct (date_before (k x) (k y)) eqn:E.
  - constructor; [exact Hs | constructor; apply str_lt_le; exact E].
  - apply Sorted_inv in Hs as [Hs Hhd]. constructor; [exact (IH Hs) |].
    destruct l as [| z l]; simpl; [constructor; apply str_lt_false_le; exact E |].
    destruct (date_before (k x) (k z)); constructor;
      [apply str_lt_false_le; exact E | inversion Hhd; assumption].
Qed.

Lemma sort_key_sorted {A} (k : A -> string) (l : list A) :
  Sorted (fun a b => str_le (k a) (k b)) (sort_key k l).
Proof.
  unfold sort_key.
  assert (H : forall acc, Sorted (fun a b => str_le (k a) (k b)) acc ->
              Sorted (fun a b => str_le (k a) (k b)) (fold_left (fun acc x => insert_key k x acc) l acc)).
  { induction l as [| x l IH]; intros acc Hacc; simpl; [exact Hacc |].
    apply IH. apply insert_key_sorted. exact Hacc. }
  apply H. constructor.
Qed.

Lemma insert_key_perm {A} (k : A -> string) (x : A) (l : list A) : Permutation (insert_key k x l) (x :: l).
Proof.
  induction l as [| y l IH]; simpl; [reflexivity |].
  destruct (date_before (k x) (k y)); [reflexivity |].
  etransitivity; [apply perm_skip; exact IH | apply perm_swap].
Qed.

Lemma sort_key_perm {A} (k : A -> string) (l : list A) : Permutation (sort_key k l) l.
Proof.
  unfold sort_key.
  assert (H : forall acc, Permutation (fold_left (fun acc x => insert_key k x acc) l acc) (rev l ++ acc)%list).
  { induction l as [| x l IH]; intros acc; simpl; [reflexivity |].
    rewrite IH, insert_key_perm, <- app_assoc. simpl.
    apply Permutation_app_head. reflexivity. }
  rewrite H, app_nil_r. symmetry. apply Permutation_rev.
Qed.

(** [myEntries]: the signed-in user's entries ([] when signed out). *)
Definition myEntries (session : option string) (entries : list Entry) : list Entry :=
  match session with
  | None => []
  | Some uid => filter (fun e => String.eqb (user_id e) uid) entries
  end.

(** A chart point [{ date: e.date, value: Number(e.value) }]. *)
Record ChartRow := mkChartRow { cr_date : string; cr_value : Q }.

Definition to_chart_row (e : Entry) : ChartRow := mkChartRow (date e) (value e).

(** The rows of one [ChartCard] of [DatabaseSection]: the entries [keep]
    selects, as points, sorted by date. *)
Definition chart_rows (keep : Entry -> bool) (mine : list Entry) : list ChartRow :=
  sort_key cr_date (map to_chart_row (filter keep mine)).

(** The 'this'/'prev' views keep [currentBounds && isWithinISO(e.date, ...) &&
    e.movement === movementName]; the 'all' view keeps the movement only. *)
Definition cycle_keep (tz : Z) (bounds : option (Z * Z)) (movementName : string) (e : Entry) : bool :=
  match bounds with
  | Some (s, t) => isWithinISO tz (date e) s t
  | None => false
  end && String.eqb (movement e) movementName.

Definition all_keep (movementName : string) (e : Entry) : bool := String.eqb (movement e) movementName.

(** A chart's rows are ordered by date (string order) and are exactly the
    kept entries of the user, each as a date and value. *)
Theorem chart_rows_sorted (keep : Entry -> bool) (mine : list Entry) :
  Sorted (fun a b => str_le (cr_date a) (cr_date b)) (chart_rows keep mine) /\
  Permutation (chart_rows keep mine) (map to_chart_row (filter keep mine)).
Proof. split; [apply sort_key_sorted | apply sort_key_perm]. Qed.

(** What the prefill effect puts in the inputs: [pf_value = Some v] when the
    value box shows [String(v)], [None] when it is cleared; and the notes. *)
Record Prefill := mkPrefill { pf_value : option Q; pf_notes : string }.

(** [Array.prototype.pop] without the mutation: the last element. *)
Definition last_opt {A} (l : list A) : option A := nth_error l (List.length l - 1).

(** The effect run on selecting a day (signed in as [uid]): an entry of the
    user on that date fills both inputs; otherwise the value is cleared and
    the notes carried forward from the latest earlier entry of the user for
    the day's movement. *)
Definition prefill (tz : Z) (uid : string) (entries : list Entry) (selectedDate : Z) : Prefill :=
  let targetISO := isoLocal tz selectedDate in
  let mine := filter (fun e => String.eqb (user_id e) uid) entries in
  match find (fun e => String.eqb (date e) targetISO) mine with
  | Some existing => mkPrefill (Some (value existing)) (or_default (notes existing) "")
  | None =>
      let mov := movementForDate tz selectedDate in
      let priorForMovement :=
        last_opt (sort_key date (filter (fun e => String.eqb (movement e) (name mov) && str_lt (date e) targetISO) mine)) in
      mkPrefill None (match priorForMovement with Some p => or_default (notes p) "" | None => "" end)
  end.

Lemma last_opt_in {A} (l : list A) (x : A) : last_opt l = Some x -> In x l.
Proof. unfold last_opt. apply nth_error_In. Qed.

Lemma last_opt_none {A} (l : list A) : last_opt l = None -> l = [].
Proof.
  unfold last_opt. intros H. destruct l as [| a l]; [reflexivity |].
  apply nth_error_None in H. simpl in H. lia.
Qed.

Lemma last_opt_app {A} (l : list A) (x : A) : last_opt l = Some x -> exists l', l = app l' [x].
Proof.
  intros H. destruct l as [| a l]; [discriminate |].
  destruct (exists_last (l := a :: l) ltac:(discriminate)) as [l' [b E]].
  rewrite E in H |- *. unfold last_opt in H.
  rewrite length_app, Nat.add_sub, nth_error_app2, Nat.sub_diag in H by lia.
  injection H as ->. exists l'. reflexivity.
Qed.

Lemma strongly_sorted_last {A} (R : A -> A -> Prop) (l : list A) (x : A) :
  StronglySorted R (app l [x]) -> forall y, In y l -> R y x.
Proof.
  induction l as [| a l IH]; intros Hs y Hy; [destruct Hy |].
  apply StronglySorted_inv in Hs as [Hs Hall].
  destruct Hy as [-> | Hy].
  - rewrite Forall_forall in Hall. apply Hall. apply in_or_app. right. left. reflexivity.
  - exact (IH Hs y Hy).
Qed.

(** The last element of a date-sorted list has the greatest date. *)
Lemma last_opt_sorted_max {A} (k : A -> string) (l : list A) (x : A) :
  Sorted (fun a b => str_le (k a) (k b)) l -> last_opt l = Some x -> forall y, In y l -> str_le (k y) (k x).
Proof.
  intros Hs Hx y Hy.
  apply Sorted_StronglySorted in Hs; [| intros a b c; apply str_le_trans].
  destruct (last_opt_app l x Hx) as [l' ->].
  apply in_app_or in Hy as [Hy | [<- | []]]; [| apply str_le_refl].
  exact (strongly_sorted_last _ l' x Hs y Hy).
Qed.

(** An entry the notes may be carried from: the user's, of the selected
    day's movement, dated before the selected day. *)
Definition prior_entry (tz : Z) (uid : string) (entries : list Entry) (sel : Z) (e : Entry) : Prop :=
  In e entries /\ user_id e = uid /\ movement e = name (movementForDate tz sel) /\
  str_lt (date e) (isoLocal tz sel) = true.

Lemma find_none {A} (f : A -> bool) (l : list A) : (forall x, In x l -> f x = false) -> find f l = None.
Proof.
  induction l as [| a l IH]; intros H; simpl; [reflexivity |].
  rewrite (H a (or_introl eq_refl)). apply IH. intros x Hx. apply H. right. exact Hx.
Qed.

(** When the user has no entry on the selected day, the prefill clears the
    value and takes the notes of a prior entry of the day's movement with
    the latest date, or empty notes when there is none. *)
Theorem prefill_carry_forward (tz : Z) (uid : string) (entries : list Entry) (sel : Z) :
  (forall e, In e entries -> user_id e = uid -> date e <> isoLocal tz sel) ->
  pf_value (prefill tz uid entries sel) = None /\
  ((forall e, ~ prior_entry tz uid entries sel e) -> pf_notes (prefill tz uid entries sel) = "") /\
  (forall e, prior_entry tz uid entries sel e ->
     exists p, prior_entry tz uid entries sel p /\
       pf_notes (prefill tz uid entries sel) = or_default (notes p) "" /\
       forall q, prior_entry tz uid entries sel q -> str_le (date q) (date p)).
Proof.
  intros Hnone. unfold prefill.
  rewrite find_none.
  2: { intros x Hx. apply filter_In in Hx as [Hx Hu]. apply String.eqb_eq in Hu.
       apply String.eqb_neq. exact (Hnone x Hx Hu). }
  set (L := filter _ (filter _ entries)).
  assert (HL : forall e, In e L <-> prior_entry tz uid entries sel e).
  { intros e. unfold L, prior_entry. rewrite !filter_In, !andb_true_iff, !String.eqb_eq. tauto. }
  pose proof (sort_key_perm date L) as Hperm.
  pose proof (sort_key_sorted date L) as Hsort.
  destruct (last_opt (sort_key date L)) as [p |] eqn:Hp.
  - assert (Hpp : prior_entry tz uid entries sel p).
    { apply HL. apply (Permutation_in _ Hperm). apply last_opt_in. exact Hp. }
    simpl. split; [reflexivity |]. split; [intros H; exfalso; exact (H p Hpp) |].
    intros e _. exists p. split; [exact Hpp |]. split; [reflexivity |].
    intros q Hq. apply (last_opt_sorted_max date _ p Hsort Hp).
    apply (Permutation_in _ (Permutation_sym Hperm)). apply HL. exact Hq.
  - apply last_opt_none in Hp. rewrite Hp in Hperm.
    apply Permutation_nil in Hperm.
    simpl. split; [reflexivity |]. split; [reflexivity |].
    intros e He. apply HL in He. rewrite Hperm in He. destruct He.
Qed.

(** ** The 'all' view's movement list *)

(** [movementMap.has(k)] *)
Definition has_key {A} (m : SMap A) (k : string) : bool :=
  match map_get m k with Some _ => true | None => false end.

(** [Object.values(LEGACY_MOVEMENTS).forEach((m) => m?.name && movementMap.set(m.name, m.unit || ''))] *)
Definition legacy_step (acc : SMap string) (wm : string * Movement) : SMap string :=
  let m := snd wm in
  if String.eqb (name m) "" then acc else map_set acc (name m) (unit m).

(** [if (m?.name && m.name !== 'TBD' && !movementMap.has(m.name)) movementMap.set(m.name, m.unit || '')] *)
Definition cycle_step (acc : SMap string) (wm : string * Movement) : SMap string :=
  let m := snd wm in
  if negb (String.eqb (name m) "") && negb (String.eqb (name m) "TBD") && negb (has_key acc (name m))
  then map_set acc (name m) (unit m) else acc.

(** [movementList]: [[name, unit]] pairs in the map's insertion order. *)
Definition movementList_of (legacy : Template) (cycles : list Cycle) : SMap string :=
  fold_left (fun acc c => fold_left cycle_step (weekTemplate c) acc) cycles
            (fold_left legacy_step legacy []).

Definition movementList : SMap string := movementList_of LEGACY_MOVEMENTS CYCLES.

Lemma map_set_keys_iff {A} (m : SMap A) (k x : string) (v : A) :
  In x (map fst (map_set m k v)) <-> x = k \/ In x (map fst m).
Proof.
  split; [apply map_set_keys |].
  induction m as [| [k0 v0] m IH]; simpl; intros H.
  - destruct H as [-> | []]. left. reflexivity.
  - destruct (String.eqb k k0) eqn:E.
    + apply String.eqb_eq in E. subst k0. simpl. destruct H as [-> | [-> | H]]; auto.
    + simpl. destruct H as [-> | [-> | H]]; auto.
Qed.

Lemma has_key_in {A} (m : SMap A) (k : string) : has_key m k = true <-> In k (map fst m).
Proof.
  unfold has_key. induction m as [| [k0 v0] m IH]; simpl; [split; [discriminate | intros []] |].
  destruct (String.eqb k k0) eqn:E.
  - apply String.eqb_eq in E. subst. split; auto.
  - apply String.eqb_neq in E. rewrite IH. split; [auto | intros [H | H]; [congruence | exact H]].
Qed.

Lemma legacy_fold_keys (l : Template) (acc : SMap string) :
  NoDup (map fst acc) ->
  NoDup (map fst (fold_left legacy_step l acc)) /\
  forall x, In x (map fst (fold_left legacy_step l acc)) <->
            In x (map fst acc) \/ (x <> "" /\ exists w m, In (w, m) l /\ name m = x).
Proof.
  revert acc. induction l as [| [w m] l IH]; intros acc Hnd; simpl.
  - split; [exact Hnd |]. intros x. split; [left; exact H | intros [H | [_ [w [m [[] _]]]]]; exact H].
  - assert (Hs : legacy_step acc (w, m) = if String.eqb (name m) "" then acc else map_set acc (name m) (unit m)) by reflexivity.
    rewrite Hs.
    destruct (String.eqb (name m) "") eqn:E.
    + apply String.eqb_eq in E.
      destruct (IH acc Hnd) as [Hnd' Hk]. split; [exact Hnd' |].
      intros x. rewrite Hk. split.
      * intros [H | [Hx [w' [m' [Hin Hn]]]]]; [left; exact H | right; split; [exact Hx |]].
        exists w', m'. split; [right; exact Hin | exact Hn].
      * intros [H | [Hx [w' [m' [[Heq | Hin] Hn]]]]]; [left; exact H | | ].
        -- injection Heq as -> ->. congruence.
        -- right. split; [exact Hx |]. exists w', m'. split; assumption.
    + apply String.eqb_neq in E.
      destruct (IH (map_set acc (name m) (unit m)) (map_set_nodup _ _ _ Hnd)) as [Hnd' Hk].
      split; [exact Hnd' |].
      intros x. rewrite Hk, map_set_keys_iff. split.
      * intros [[-> | H] | [Hx [w' [m' [Hin Hn]]]]].
        -- right. split; [exact E |]. exists w, m. split; [left; reflexivity | reflexivity].
        -- left. exact H.
        -- right. split; [exact Hx |]. exists w', m'. split; [right; exact Hin | exact Hn].
      * intros [H | [Hx [w' [m' [[Heq | Hin] Hn]]]]].
        -- left. right. exact H.
        -- injection Heq as -> ->. left. left. symmetry. exact Hn.
        -- right. split; [exact Hx |]. exists w', m'. split; assumption.
Qed.

Lemma cycle_fold_keys (l : Template) (acc : SMap string) :
  NoDup (map fst acc) ->
  NoDup (map fst (fold_left cycle_step l acc)) /\
  forall x, In x (map fst (fold_left cycle_step l acc)) <->
            In x (map fst acc) \/ (x <> "" /\ x <> "TBD" /\ exists w m, In (w, m) l /\ name m = x).
Proof.
  revert acc. induction l as [| [w m] l IH]; intros acc Hnd; simpl.
  - split; [exact Hnd |]. intros x. split; [left; exact H | intros [H | [_ [_ [w [m [[] _]]]]]]; exact H].
  - assert (Hs : cycle_step acc (w, m) =
      if negb (String.eqb (name m) "") && negb (String.eqb (name m) "TBD") && negb (has_key acc (name m))
      then map_set acc (name m) (unit m) else acc) by reflexivity.
    rewrite Hs.
    destruct (String.eqb (name m) "") eqn:E1;
    [| destruct (String.eqb (name m) "TBD") eqn:E2;
       [| destruct (has_key acc (name m)) eqn:E3]]; simpl.
    1,2,3: destruct (IH acc Hnd) as [Hnd' Hk]; split; [exact Hnd' |];
      intros x; rewrite Hk; split;
      [ intros [H | [Hx [Hx' [w' [m' [Hin Hn]]]]]]; [left; exact H | right; split; [exact Hx | split; [exact Hx' |]]];
        exists w', m'; split; [right; exact Hin | exact Hn]
      | intros [H | [Hx [Hx' [w' [m' [[Heq | Hin] Hn]]]]]];
        [ left; exact H
        | injection Heq as -> ->
        | right; split; [exact Hx | split; [exact Hx' |]]; exists w', m'; split; assumption ] ].
    + apply String.eqb_eq in E1. congruence.
    + apply String.eqb_eq in E2. congruence.
    + left. subst x. apply has_key_in. exact E3.
    + apply String.eqb_neq in E1. apply String.eqb_neq in E2.
      destruct (IH (map_set acc (name m) (unit m)) (map_set_nodup _ _ _ Hnd)) as [Hnd' Hk].
      split; [exact Hnd' |].
      intros x. rewrite Hk, map_set_keys_iff. split.
      * intros [[-> | H] | [Hx [Hx' [w' [m' [Hin Hn]]]]]].
        -- right. split; [exact E1 | split; [exact E2 |]]. exists w, m. split; [left; reflexivity | reflexivity].
        -- left. exact H.
        -- right. split; [exact Hx | split; [exact Hx' |]]. exists w', m'. split; [right; exact Hin | exact Hn].
      * intros [H | [Hx [Hx' [w' [m' [[Heq | Hin] Hn]]]]]].
        -- left. right. exact H.
        -- injection Heq as -> ->. left. left. symmetry. exact Hn.
        -- right. split; [exact Hx | split; [exact Hx' |]]. exists w', m'. split; assumption.
Qed.

Lemma cycles_fold_keys (cycles : list Cycle) (acc : SMap string) :
  NoDup (map fst acc) ->
  NoDup (map fst (fold_left (fun acc c => fold_left cycle_step (weekTemplate c) acc) cycles acc)) /\
  forall x, In x (map fst (fold_left (fun acc c => fold_left cycle_step (weekTemplate c) acc) cycles acc)) <->
    In x (map fst acc) \/
    (x <> "" /\ x <> "TBD" /\ exists c w m, In c cycles /\ In (w, m) (weekTemplate c) /\ name m = x).
Proof.
  revert acc. induction cycles as [| c cs IH]; intros acc Hnd; simpl.
  - split; [exact Hnd |]. intros x. split; [left; exact H | intros [H | [_ [_ [c [_ [_ [[] _]]]]]]]; exact H].
  - destruct (cycle_fold_keys (weekTemplate c) acc Hnd) as [Hnd1 Hk1].
    destruct (IH _ Hnd1) as [Hnd2 Hk2]. split; [exact Hnd2 |].
    intros x. rewrite Hk2, Hk1. split.
    + intros [[H | [Hx [Hx' [w [m [Hin Hn]]]]]] | [Hx [Hx' [c' [w [m [Hc [Hin Hn]]]]]]]].
      * left. exact H.
      * right. split; [exact Hx | split; [exact Hx' |]]. exists c, w, m. auto.
      * right. split; [exact Hx | split; [exact Hx' |]]. exists c', w, m. auto.
    + intros [H | [Hx [Hx' [c' [w [m [[<- | Hc] [Hin Hn]]]]]]]].
      * left. left. exact H.
      * left. right. split; [exact Hx | split; [exact Hx' |]]. exists w, m. auto.
      * right. split; [exact Hx | split; [exact Hx' |]]. exists c', w, m. auto.
Qed.

(** The 'all' view of [DatabaseSection] lists each movement name at most
    once, and a name is listed exactly when it is non-empty and it names a
    legacy movement, or it is not ["TBD"] and names a movement of some
    cycle's week template. *)
Theorem movementList_names (legacy : Template) (cycles : list Cycle) :
  NoDup (map fst (movementList_of legacy cycles)) /\
  forall x, In x (map fst (movementList_of legacy cycles)) <->
    x <> "" /\ ((exists w m, In (w, m) legacy /\ name m = x) \/
                (x <> "TBD" /\ exists c w m, In c cycles /\ In (w, m) (weekTemplate c) /\ name m = x)).
Proof.
  unfold movementList_of.
  destruct (legacy_fold_keys legacy [] (NoDup_nil _)) as [Hnd0 Hk0].
  destruct (cycles_fold_keys cycles _ Hnd0) as [Hnd Hk]. split; [exact Hnd |].
  intros x. rewrite Hk, Hk0. simpl. split.
  - intros [[[] | [Hx H]] | [Hx [Hx' H]]].
    + split; [exact Hx | left; exact H].
    + split; [exact Hx | right; split; [exact Hx' | exact H]].
  - intros [Hx [H | [Hx' H]]].
    + left. right. split; [exact Hx | exact H].
    + right. split; [exact Hx | split; [exact Hx' | exact H]].
Qed.

(** ** Sign-in code ([verifySixDigitCode]) *)

(** [onChange={(e)=>setOtp(e.target.value.replace(/\D/g,''))}] *)
Definition otp_input (raw : string) : string :=
  string_of_list_ascii (filter is_digit (list_ascii_of_string raw)).

(** [/^\d{6}$/.test(s)] *)
Definition six_digits (s : string) : bool :=
  (String.length s =? 6)%nat && forallb is_digit (list_ascii_of_string s).

Inductive VerifyOutcome :=
| AlertEmail                (* 'Enter your email above first' *)
| AlertCode                 (* 'Enter the 6-digit code from the email' *)
| VerifyOtp (token : string). (* [supabase.auth.verifyOtp({ email, token: otp.trim(), ... })] *)

Definition verifySixDigitCode (email otp : string) : VerifyOutcome :=
  if String.eqb email "" then AlertEmail
  else if six_digits (trim otp) then VerifyOtp (trim otp)
  else AlertCode.

Lemma trim_start_no_ws (l : list ascii) :
  forallb (fun c => negb (is_ws c)) l = true -> trim_start (string_of_list_ascii l) = string_of_list_ascii l.
Proof.
  destruct l as [| c l]; simpl; [reflexivity |].
  intros H. apply andb_prop in H as [H _]. destruct (is_ws c); [discriminate | reflexivity].
Qed.

Lemma forallb_rev {A} (f : A -> bool) (l : list A) : forallb f (rev l) = forallb f l.
Proof.
  induction l as [| a l IH]; simpl; [reflexivity |].
  rewrite forallb_app, IH. simpl. rewrite andb_true_r, andb_comm. reflexivity.
Qed.

Lemma trim_no_ws (l : list ascii) :
  forallb (fun c => negb (is_ws c)) l = true -> trim (string_of_list_ascii l) = string_of_list_ascii l.
Proof.
  intros H. unfold trim. rewrite (trim_start_no_ws l H), list_ascii_of_string_of_list_ascii.
  rewrite trim_start_no_ws by (rewrite forallb_rev; exact H).
  rewrite list_ascii_of_string_of_list_ascii, rev_involutive. reflexivity.
Qed.

Lemma length_sol (l : list ascii) : String.length (string_of_list_ascii l) = List.length l.
Proof. induction l as [| c l IH]; simpl; congruence. Qed.

(** The check on the digits the field's text holds. *)
Lemma verifySixDigitCode_digits (email raw : string) :
  email <> "" ->
  verifySixDigitCode email (otp_input raw) =
  if (List.length (filter is_digit (list_ascii_of_string raw)) =? 6)%nat
  then VerifyOtp (otp_input raw) else AlertCode.
Proof.
  intros He. unfold verifySixDigitCode.
  destruct (String.eqb email "") eqn:E; [apply String.eqb_eq in E; contradiction |].
  set (l := filter is_digit (list_ascii_of_string raw)).
  assert (Hd : forallb is_digit l = true) by apply forallb_filter_digit.
  assert (Hw : forallb (fun c => negb (is_ws c)) l = true).
  { apply forallb_forall. intros c Hc. apply (proj1 (forallb_forall _ _) Hd) in Hc.
    rewrite (digit_not_ws c Hc). reflexivity. }
  unfold otp_input. fold l. rewrite (trim_no_ws l Hw).
  unfold six_digits. rewrite length_sol, list_ascii_of_string_of_list_ascii, Hd, andb_true_r.
  reflexivity.
Qed.

Lemma filter_length_le' {A} (f : A -> bool) (l : list A) : (List.length (filter f l) <= List.length l)%nat.
Proof. induction l as [| a l IH]; simpl; [lia | destruct (f a); simpl; lia]. Qed.

Lemma filter_length_full {A} (f : A -> bool) (l : list A) :
  List.length (filter f l) = List.length l -> filter f l = l /\ forallb f l = true.
Proof.
  induction l as [| a l IH]; simpl; [auto |].
  pose proof (filter_length_le' f l) as Hle.
  destruct (f a); simpl; intros Heq; [| lia].
  destruct (IH ltac:(lia)) as [-> ->]. auto.
Qed.

(** [maxLength={6}]: the browser keeps the text of the code field to six
    characters; text typed or pasted at the end of it is cut to what fits. *)
Definition maxLength : nat := 6.

Definition insert_text (cur ins : string) : string :=
  cur ++ substring 0 (maxLength - String.length cur) ins.

(** With an email entered and the code field holding at most [maxLength]
    characters, the sign-in code is sent for verification exactly when the
    field holds six digits, and the token sent is the field's text;
    otherwise the code alert is shown. *)
Theorem verifySixDigitCode_typed (email raw : string) :
  email <> "" -> (String.length raw <= maxLength)%nat ->
  verifySixDigitCode email (otp_input raw) = if six_digits raw then VerifyOtp raw else AlertCode.
Proof.
  intros He Hl. rewrite (verifySixDigitCode_digits email raw He). unfold maxLength in Hl.
  pose proof (filter_length_le' is_digit (list_ascii_of_string raw)) as Hle.
  assert (Hlen : List.length (list_ascii_of_string raw) = String.length raw).
  { rewrite <- (string_of_list_ascii_of_string raw) at 2. symmetry. apply length_sol. }
  unfold six_digits.
  destruct (Nat.eqb_spec (List.length (filter is_digit (list_ascii_of_string raw))) 6) as [H6 | H6].
  - destruct (filter_length_full is_digit (list_ascii_of_string raw) ltac:(lia)) as [Hf Ha].
    replace (String.length raw =? 6)%nat with true by (symmetry; apply Nat.eqb_eq; lia).
    rewrite Ha. unfold otp_input. rewrite Hf, string_of_list_ascii_of_string. reflexivity.
  - destruct (String.length raw =? 6)%nat eqn:E6; [| reflexivity].
    apply Nat.eqb_eq in E6.
    destruct (forallb is_digit (list_ascii_of_string raw)) eqn:Ea; [| reflexivity].
    exfalso. apply H6. rewrite (forallb_filter_id _ _ Ea). lia.
Qed.

Lemma verifySixDigitCode_typed_witness :
  verifySixDigitCode "u@x.io" (otp_input (insert_text "" " 12-34 56 ")) = AlertCode /\
  verifySixDigitCode "u@x.io" (otp_input (insert_text "123" "4567")) = VerifyOtp "123456".
Proof.
  split.
  - rewrite (verifySixDigitCode_typed "u@x.io" (insert_text "" " 12-34 56 ") ltac:(discriminate)
               ltac:(vm_compute; lia)).
    reflexivity.
  - rewrite (verifySixDigitCode_typed "u@x.io" (insert_text "123" "4567") ltac:(discriminate)
               ltac:(vm_compute; lia)).
    reflexivity.
Defined.

Lemma prefill_carry_forward_witness :
  pf_value (prefill 0 "u" [mkEntry "u" "2026-01-12" "Landmine kickstand squat 6 RM" 100 "lbs" None None (Some "felt good")]
                    (local_date 0 2026 1 19)) = None.
Proof.
  refine (proj1 (prefill_carry_forward 0 "u" _ (local_date 0 2026 1 19) _)).
  intros e [<- | []] _. vm_compute. discriminate.
Defined.

Lemma db_cycles_choice_witness :
  db_cycles_in CYCLES 0 (local_date 0 2025 1 1) = (js_at CYCLES 4, js_at CYCLES 3).
Proof.
  pose proof (db_cycles_choice CYCLES 0 (local_date 0 2025 1 1)) as H.
  assert (E : getCycleForDate_in CYCLES 0 (local_date 0 2025 1 1) = None) by (vm_compute; reflexivity).
  rewrite E in H. destruct H as [_ H].
  rewrite (H [mkCycle PREV_CYCLE_START (Some PREV_CYCLE_END) None PREV_WEEK_TEMPLATE;
              mkCycle SEPT_CYCLE_START None (Some SEPT_CYCLE_WEEKS) SEPT_WEEK_TEMPLATE;
              mkCycle OCT_CYCLE_START None (Some OCT_CYCLE_WEEKS) OCT_WEEK_TEMPLATE] _ _ eq_refl).
  reflexivity.
Defined.
